(** * namedwebsockets: the per-channel broadcast hub of [socket.go]

    A shallow embedding of [NamedWebSocket] (connection set, the two
    buffered Go channels, the dispatcher and the connection pumps) and the
    properties of admission, broadcast, removal and shutdown.

    Conventions.
    - A [*websocket.Conn] is a stream handle; the code identifies a
      connection by that pointer ([conn.ws != broadcast.source.ws],
      [oConn.ws == conn.ws]), and so does the model.
    - A Go function that sends on a buffered channel may suspend there.
      Code runs in the monad [M]: state passing over [World], with the
      outcomes "returned", "run-time panic" and "parked in a send".
    - Everything the code does to a stream is appended to an event trace,
      in program order. *)

From Stdlib Require Import String.
From Stdlib Require Import List Bool Arith ZArith Lia.
Import ListNotations.
Open Scope nat_scope.

(** ** Constants (socket.go, lines 11-23) *)

(** [time.Duration] counts nanoseconds. *)
Definition Second : Z := 1000000000%Z.

(** Time allowed to write a message to the peer. *)
Definition writeWait : Z := (10 * Second)%Z.

(** Time allowed to read the next pong message from the peer. *)
Definition pongWait : Z := (60 * Second)%Z.

(** Send pings to peer with this period. *)
Definition pingPeriod : Z := Z.quot (pongWait * 9) 10.

(** Maximum message size allowed from peer. *)
Definition maxMessageSize : Z := 1024%Z.

(** ** Data model (socket.go, lines 25-49) *)

Definition Handle := nat.

Record Connection : Type := mkConnection {
  ws : Handle;
  isProxy : bool
}.

Record WSMessage : Type := mkWSMessage {
  source : Connection;
  payload : string
}.

(** A buffered Go channel of [*WSMessage]: [make(chan *WSMessage, n)]. *)
Record Chan : Type := mkChan {
  capacity : nat;
  queue : list WSMessage;
  closed : bool
}.

Definition make_chan (n : nat) : Chan :=
  {| capacity := n; queue := []; closed := false |}.

Record NamedWebSocket : Type := mkNamedWebSocket {
  serviceName : string;
  connections : list Connection;
  broadcastBuffer : Chan;
  controlBuffer : Chan;
  discoveryClient : option string
}.

(** The websocket frame types the hub writes. *)
Inductive MessageType : Type :=
| TextMessage
| CloseMessage
| PingMessage.

(** What the hub does to the streams and the ticker, in program order. *)
Inductive Event : Type :=
| EvSetWriteDeadline (h : Handle) (t : Z)
| EvWriteMessage (h : Handle) (mt : MessageType) (p : string) (ok : bool)
| EvSetReadLimit (h : Handle) (n : Z)
| EvSetReadDeadline (h : Handle) (t : Z)
| EvClose (h : Handle)
| EvNewTicker (h : Handle) (d : Z)
| EvTickerStop (h : Handle)
| EvLog (s : string).

(** The environment of the hub: the clock, the streams on which a write
    fails (closed, or peer gone), and the trace. *)
Record Net : Type := mkNet {
  now : Z;
  dead : list Handle;
  trace : list Event
}.

Record World : Type := mkWorld {
  sock : NamedWebSocket;
  net : Net
}.

(** ** Record updates *)

Definition set_connections (l : list Connection) (s : NamedWebSocket) :=
  {| serviceName := serviceName s; connections := l;
     broadcastBuffer := broadcastBuffer s; controlBuffer := controlBuffer s;
     discoveryClient := discoveryClient s |}.

Definition set_broadcastBuffer (c : Chan) (s : NamedWebSocket) :=
  {| serviceName := serviceName s; connections := connections s;
     broadcastBuffer := c; controlBuffer := controlBuffer s;
     discoveryClient := discoveryClient s |}.

Definition set_controlBuffer (c : Chan) (s : NamedWebSocket) :=
  {| serviceName := serviceName s; connections := connections s;
     broadcastBuffer := broadcastBuffer s; controlBuffer := c;
     discoveryClient := discoveryClient s |}.

Definition set_discoveryClient (d : option string) (s : NamedWebSocket) :=
  {| serviceName := serviceName s; connections := connections s;
     broadcastBuffer := broadcastBuffer s; controlBuffer := controlBuffer s;
     discoveryClient := d |}.

Definition on_sock (f : NamedWebSocket -> NamedWebSocket) (w : World) :=
  {| sock := f (sock w); net := net w |}.

Definition log (evs : list Event) (w : World) : World :=
  {| sock := sock w;
     net := {| now := now (net w); dead := dead (net w);
               trace := trace (net w) ++ evs |} |}.

Definition kill (h : Handle) (w : World) : World :=
  {| sock := sock w;
     net := {| now := now (net w); dead := h :: dead (net w);
               trace := trace (net w) |} |}.

(** ** The two buffers *)

Inductive BufferId : Type := BroadcastBuf | ControlBuf.

Definition buffer (b : BufferId) (s : NamedWebSocket) : Chan :=
  match b with
  | BroadcastBuf => broadcastBuffer s
  | ControlBuf => controlBuffer s
  end.

Definition set_buffer (b : BufferId) (c : Chan) (s : NamedWebSocket) :=
  match b with
  | BroadcastBuf => set_broadcastBuffer c s
  | ControlBuf => set_controlBuffer c s
  end.

Definition has_room (c : Chan) : bool := length (queue c) <? capacity c.

Definition enqueue (m : WSMessage) (c : Chan) : Chan :=
  {| capacity := capacity c; queue := queue c ++ [m]; closed := closed c |}.

(** [v, ok := <-c] on a channel of pointers: the oldest queued message;
    on a closed and drained channel the zero value [nil] with [ok = false];
    otherwise the receiver waits. *)
Inductive RecvResult : Type :=
| Received (v : option WSMessage) (ok : bool) (c' : Chan)
| RecvWaits.

Definition chan_recv (c : Chan) : RecvResult :=
  match queue c with
  | m :: q =>
      Received (Some m) true
        {| capacity := capacity c; queue := q; closed := closed c |}
  | [] => if closed c then Received None false c else RecvWaits
  end.

(** ** The monad of hub code *)

(** A panic ends the process; the deferred calls that run while it unwinds
    are not followed. *)

Inductive Fault : Type :=
| NilDereference
| SendOnClosedChannel.

Inductive Act (A : Type) : Type :=
| Ret (a : A) (w : World)
| Panic (e : Fault)
| Park (w : World) (b : BufferId) (m : WSMessage) (k : World -> Act A).

Arguments Ret {A} a w.
Arguments Panic {A} e.
Arguments Park {A} w b m k.

Definition M (A : Type) : Type := World -> Act A.

Definition ret {A} (a : A) : M A := fun w => Ret a w.

Fixpoint act_bind {A B} (x : Act A) (f : A -> M B) : Act B :=
  match x with
  | Ret a w => f a w
  | Panic e => Panic e
  | Park w b m k => Park w b m (fun w' => act_bind (k w') f)
  end.

Definition bind {A B} (c : M A) (f : A -> M B) : M B :=
  fun w => act_bind (c w) f.

Declare Scope hub_scope.
Delimit Scope hub_scope with hub.
Notation "x <- c ;; k" := (bind c (fun x => k))
  (at level 61, c at next level, right associativity) : hub_scope.
Notation "c ;; k" := (bind c (fun _ => k))
  (at level 61, right associativity) : hub_scope.
Open Scope hub_scope.

Definition modify (f : World -> World) : M unit := fun w => Ret tt (f w).

Definition panic {A} (e : Fault) : M A := fun _ => Panic e.

(** [p.field] through a pointer that may be nil. *)
Definition deref {A} (p : option A) : M A :=
  match p with
  | Some a => ret a
  | None => panic NilDereference
  end.

(** [b <- m]: panics on a closed channel, enqueues when the buffer has
    room, otherwise the goroutine parks with [m] pending; it resumes, with
    [m] enqueued, once there is room. *)
Definition send (b : BufferId) (m : WSMessage) : M unit :=
  fun w =>
    let c := buffer b (sock w) in
    if closed c then Panic SendOnClosedChannel
    else if has_room c then Ret tt (on_sock (set_buffer b (enqueue m c)) w)
    else Park w b m (fun w' => Ret tt w').

(** [for _, x := range l { body x }]; the slice is read once, before the
    first iteration. *)
Fixpoint for_range {X} (l : list X) (body : X -> M unit) : M unit :=
  match l with
  | [] => ret tt
  | x :: r => body x ;; for_range r body
  end.

(** ** Writing to a stream (socket.go, lines 213-217) *)

Definition write_fails (n : Net) (h : Handle) : bool :=
  existsb (Nat.eqb h) (dead n).

(** [conn.ws.WriteMessage(mt, payload)] returns an error on a dead stream. *)
Definition ws_WriteMessage (h : Handle) (mt : MessageType) (p : string)
  : M bool :=
  fun w =>
    let ok := negb (write_fails (net w) h) in
    Ret ok (log [EvWriteMessage h mt p ok] w).

Definition ws_SetWriteDeadline (h : Handle) (t : Z) : M unit :=
  modify (log [EvSetWriteDeadline h t]).

(** The error of [WriteMessage] is dropped: [write] has no result. *)
Definition write (conn : Connection) (mt : MessageType) (p : string)
  : M unit :=
  fun w =>
    (ws_SetWriteDeadline (ws conn) (now (net w) + writeWait)%Z ;;
     _ <- ws_WriteMessage (ws conn) mt p ;;
     ret tt) w.

(** ** Broadcast (socket.go, lines 219-231) *)

Definition broadcast (m : WSMessage) : M unit :=
  fun w =>
    for_range (connections (sock w)) (fun conn =>
      if negb (ws conn =? ws (source m)) then
        if isProxy conn && isProxy (source m) then ret tt
        else write conn TextMessage (payload m)
      else ret tt) w.

(** ** Admission (socket.go, lines 186-211) *)

Definition connectPayload : string := "____connect"%string.
Definition disconnectPayload : string := "____disconnect"%string.

Definition addConnection (conn : Connection) : M unit :=
  (fun w =>
     (* Notify new websocket connection of existing websocket connections *)
     for_range (connections (sock w)) (fun oConn =>
       if negb (isProxy conn) || (isProxy conn && negb (isProxy oConn))
       then write conn TextMessage connectPayload
       else ret tt) w) ;;
  (if negb (isProxy conn)
   then send ControlBuf {| source := conn; payload := connectPayload |}
   else ret tt) ;;
  (* Add this websocket instance to connections *)
  modify (fun w =>
    on_sock (set_connections (connections (sock w) ++ [conn])) w).

(** ** Removal (socket.go, lines 233-251) *)

(** The index [i] at which the [range] loop of [removeConnection] breaks. *)
Fixpoint index_ws (h : Handle) (l : list Connection) : option nat :=
  match l with
  | [] => None
  | oConn :: r =>
      if ws oConn =? h then Some 0 else option_map S (index_ws h r)
  end.

(** [append(l[:i], l[i+1:]...)] *)
Definition splice_out (i : nat) (l : list Connection) : list Connection :=
  firstn i l ++ skipn (S i) l.

Definition removeConnection (conn : Connection) : M unit :=
  modify (fun w =>
    match index_ws (ws conn) (connections (sock w)) with
    | Some i =>
        on_sock (set_connections (splice_out i (connections (sock w)))) w
    | None => w
    end) ;;
  (if negb (isProxy conn)
   then send ControlBuf {| source := conn; payload := disconnectPayload |}
   else ret tt).

(** ** Loops that wait for events *)

(** How one iteration ends: [Next] goes round again, [Exit] is [break] or
    [return], [Stall] means the iteration cannot start yet. *)
Inductive Ctl : Type := Next | Exit | Stall.

(** A goroutine after a finite run: still in its loop, or out of it. *)
Inductive Status : Type := Running | Exited.

(** [for { body }] against the events the environment supplies; when they
    are used up the goroutine is waiting for the next one. *)
Fixpoint run_loop {I} (body : I -> M Ctl) (events : list I) : M Status :=
  match events with
  | [] => ret Running
  | e :: es =>
      c <- body e ;;
      match c with
      | Next => run_loop body es
      | Exit => ret Exited
      | Stall => ret Running
      end
  end.

(** ** The dispatcher (socket.go, lines 166-184) *)

Definition other_buffer (b : BufferId) : BufferId :=
  match b with
  | BroadcastBuf => ControlBuf
  | ControlBuf => BroadcastBuf
  end.

(** [select] over the two receive cases. A case is ready when its receive
    does not wait; when both are ready Go picks one at random, here the
    one the scheduler prefers. [None]: both wait. *)
Definition select (pref : BufferId) (s : NamedWebSocket)
  : option (BufferId * RecvResult) :=
  match chan_recv (buffer pref s) with
  | Received v ok c' => Some (pref, Received v ok c')
  | RecvWaits =>
      match chan_recv (buffer (other_buffer pref) s) with
      | Received v ok c' => Some (other_buffer pref, Received v ok c')
      | RecvWaits => None
      end
  end.

(** The body of either case ([wsConnect] and [wsBroadcast] are handled by
    the same statements). *)
Definition dispatch_case (v : option WSMessage) (ok : bool) : M Ctl :=
  if negb ok then
    m <- deref v ;;
    write (source m) CloseMessage ""%string ;;
    ret Exit
  else
    m <- deref v ;;
    broadcast m ;;
    ret Next.

Definition messageDispatcher_iter (pref : BufferId) : M Ctl :=
  fun w =>
    match select pref (sock w) with
    | Some (b, Received v ok c') =>
        (modify (on_sock (set_buffer b c')) ;; dispatch_case v ok) w
    | _ => Ret Stall w
    end.

Definition messageDispatcher (choices : list BufferId) : M Status :=
  run_loop messageDispatcher_iter choices.

(** ** The connection pumps (socket.go, lines 128-164) *)

Definition ws_Close (h : Handle) : M unit :=
  modify (fun w => kill h (log [EvClose h] w)).

(** What arrives on a stream. *)
Inductive Incoming : Type :=
| InData (p : string)
| InPong
| InError.

Inductive ReadResult : Type :=
| GotMessage (p : string)
| GotError
| StillReading.

(** [conn.ws.ReadMessage()] against one incoming item: a pong runs the pong
    handler and reading goes on; a data frame over the read limit, a peer
    close and an expired deadline are errors. *)
Definition ws_ReadMessage (limit : Z) (pongHandler : M unit) (i : Incoming)
  : M ReadResult :=
  match i with
  | InPong => pongHandler ;; ret StillReading
  | InData p =>
      if (limit <? Z.of_nat (String.length p))%Z then ret GotError
      else ret (GotMessage p)
  | InError => ret GotError
  end.

Definition ws_SetReadDeadline (h : Handle) : M unit :=
  fun w => Ret tt (log [EvSetReadDeadline h (now (net w) + pongWait)%Z] w).

Definition readConnectionPump_deferred (conn : Connection) : M unit :=
  ws_Close (ws conn) ;;
  removeConnection conn.

Definition readConnectionPump (conn : Connection) (incoming : list Incoming)
  : M Status :=
  modify (log [EvSetReadLimit (ws conn) maxMessageSize]) ;;
  ws_SetReadDeadline (ws conn) ;;
  st <- run_loop (fun i =>
          r <- ws_ReadMessage maxMessageSize (ws_SetReadDeadline (ws conn)) i ;;
          match r with
          | GotError => ret Exit
          | GotMessage message =>
              send BroadcastBuf {| source := conn; payload := message |} ;;
              ret Next
          | StillReading => ret Next
          end) incoming ;;
  match st with
  | Exited => readConnectionPump_deferred conn ;; ret Exited
  | Running => ret Running
  end.

Definition writeConnectionPump_deferred (conn : Connection) : M unit :=
  modify (log [EvTickerStop (ws conn)]) ;;
  ws_Close (ws conn) ;;
  removeConnection conn.

(** [ticks]: the values delivered on [ticker.C]; the loop discards them. *)
Definition writeConnectionPump (conn : Connection) (ticks : list Z)
  : M Status :=
  modify (log [EvNewTicker (ws conn) pingPeriod]) ;;
  st <- run_loop (fun _ : Z =>
          write conn PingMessage ""%string ;;
          ret Next) ticks ;;
  match st with
  | Exited => writeConnectionPump_deferred conn ;; ret Exited
  | Running => ret Running
  end.

(** ** The endpoint (socket.go, lines 91-126) *)

Record Request : Type := mkRequest {
  Method : string;
  Header : list (string * string)
}.

(** [r.Header.Get(key)]: the first value of the key, or the empty string. *)
Fixpoint Header_Get (key : string) (h : list (string * string)) : string :=
  match h with
  | [] => ""%string
  | (k, v) :: r => if String.eqb k key then v else Header_Get key r
  end.

(** The result of [upgrader.Upgrade], decided by the handshake. *)
Inductive Upgrade : Type :=
| Upgraded (h : Handle)
| HandshakeError
| OtherError (e : string).

Inductive Served : Type :=
| HttpError (msg : string) (code : nat)
| NoStream
| Attached (conn : Connection) (st : Status).

(** [serve] on the stream's [incoming] items. The read pump runs in the
    calling goroutine, so [serve] is over when the pump is; the write pump
    of line 123 is a goroutine of its own, [writeConnectionPump]. *)
Definition serve (r : Request) (up : Upgrade) (incoming : list Incoming)
  : M Served :=
  if negb (String.eqb (Method r) "GET"%string) then
    ret (HttpError "Method not allowed"%string 405)
  else
    let isProxy :=
      String.eqb
        (Header_Get "X-BroadcastWebSocket-Proxy"%string (Header r))
        "true"%string in
    match up with
    | HandshakeError => ret NoStream
    | OtherError e => modify (log [EvLog e]) ;; ret NoStream
    | Upgraded h =>
        let conn := {| ws := h; isProxy := isProxy |} in
        addConnection conn ;;
        st <- readConnectionPump conn incoming ;;
        ret (Attached conn st)
    end.

(** ** Creation (socket.go, lines 59-89) *)

(** The new channel and the line it logs; the dispatcher (and, for a
    broadcast channel, [advertise]) then start as goroutines. *)
Definition NewNamedWebSocket (name : string) (isBroadcast : bool)
  : NamedWebSocket * string :=
  let scope :=
    if Bool.eqb isBroadcast false then "local"%string
    else "broadcast"%string in
  ({| serviceName := name;
      connections := [];
      broadcastBuffer := make_chan 512;
      controlBuffer := make_chan 512;
      discoveryClient := None |},
   ("New " ++ scope ++ " web socket '" ++ name ++ "' created.")%string).

(** Modelled from the spec: [DiscoveryClient] and [NewDiscoveryClient] are
    not among the source files; the discovery collaborator is "a component
    that registers availability" under the channel's name, so a client is
    the name it advertises. *)
Definition NewDiscoveryClient (name : string) : string := name.

Definition advertise : M unit :=
  modify (fun w =>
    match discoveryClient (sock w) with
    | None =>
        on_sock (set_discoveryClient
                   (Some (NewDiscoveryClient (serviceName (sock w))))) w
    | Some _ => w
    end).

(** ** Observing a run *)

(** The events appended to the trace between [w] and [w']. *)
Definition emitted (w w' : World) : list Event :=
  skipn (length (trace (net w))) (trace (net w')).

(** The [WriteMessage] calls among some events: stream, type, payload. *)
Fixpoint frames (evs : list Event) : list (Handle * MessageType * string) :=
  match evs with
  | [] => []
  | EvWriteMessage h mt p _ :: r => (h, mt, p) :: frames r
  | _ :: r => frames r
  end.

(** The streams closed among some events. *)
Fixpoint closes (evs : list Event) : list Handle :=
  match evs with
  | [] => []
  | EvClose h :: r => h :: closes r
  | _ :: r => closes r
  end.

(** What [write] appends to the trace in environment [n]. *)
Definition write_events (n : Net) (conn : Connection) (mt : MessageType)
  (p : string) : list Event :=
  [EvSetWriteDeadline (ws conn) (now n + writeWait)%Z;
   EvWriteMessage (ws conn) mt p (negb (write_fails n (ws conn)))].

(** The events of one iteration of the loop of [broadcast]. *)
Definition broadcast_events (m : WSMessage) (t : Z) (d : list Handle)
  (conn : Connection) : list Event :=
  if negb (ws conn =? ws (source m)) then
    if isProxy conn && isProxy (source m) then []
    else write_events {| now := t; dead := d; trace := [] |} conn
           TextMessage (payload m)
  else [].

(** The events of one iteration of the first loop of [addConnection]. *)
Definition visibility_events (conn : Connection) (t : Z) (d : list Handle)
  (oConn : Connection) : list Event :=
  if negb (isProxy conn) || (isProxy conn && negb (isProxy oConn)) then
    write_events {| now := t; dead := d; trace := [] |} conn
      TextMessage connectPayload
  else [].

(** [addConnection conn] runs to its end in [w]: a proxy is not announced on
    the control buffer; a client is, and the buffer takes the message. *)
Definition can_announce (conn : Connection) (w : World) : Prop :=
  isProxy conn = true \/
  (closed (controlBuffer (sock w)) = false /\
   has_room (controlBuffer (sock w)) = true).

(** A status in the 4xx range. *)
Definition client_error (code : nat) : Prop := 400 <= code < 500.

(** The disconnect notification of [conn]. *)
Definition wsDisconnect (conn : Connection) : WSMessage :=
  {| source := conn; payload := disconnectPayload |}.

(** One event per write of a keepalive probe. *)
Definition ping_events (n : Net) (conn : Connection) (ticks : list Z)
  : list Event :=
  flat_map (fun _ => write_events n conn PingMessage ""%string) ticks.

(** Every [WriteMessage] among the events returned an error. *)
Definition all_writes_failed (evs : list Event) : Prop :=
  Forall (fun e => match e with
                   | EvWriteMessage _ _ _ ok => ok = false
                   | _ => True
                   end) evs.

(** ** The rules of the specification, in its words *)

(** Broadcast: a recipient is every connection except the message's source,
    unless both the source and the candidate are proxy connections. *)
Definition spec_recipient (m : WSMessage) (c : Connection) : bool :=
  negb (ws c =? ws (source m)) && negb (isProxy (source m) && isProxy c).

(** Visibility on admission: a proxy connection is told about existing
    non-proxy connections only, a non-proxy connection about every one. *)
Definition spec_visible (conn oConn : Connection) : bool :=
  if isProxy conn then negb (isProxy oConn) else true.

(** ** The hub as a system of goroutines *)

(** A goroutine parked in a send: the buffer, the pending message, and
    what it does once the message is in the buffer. *)
Record Parked : Type := mkParked {
  pbuf : BufferId;
  pmsg : WSMessage;
  pk : World -> Act unit
}.

Record System : Type := mkSystem {
  world : World;
  sendq : list Parked
}.

(** What a goroutine of the program runs. *)
Inductive Job : Type :=
| JServe (r : Request) (up : Upgrade) (incoming : list Incoming)
| JAddConnection (conn : Connection)
| JRemoveConnection (conn : Connection)
| JReadPump (conn : Connection) (incoming : list Incoming)
| JWritePump (conn : Connection) (ticks : list Z)
| JDispatcher (choices : list BufferId)
| JAdvertise.

Definition run_job (j : Job) : M unit :=
  match j with
  | JServe r up incoming => _ <- serve r up incoming ;; ret tt
  | JAddConnection conn => addConnection conn
  | JRemoveConnection conn => removeConnection conn
  | JReadPump conn incoming => _ <- readConnectionPump conn incoming ;; ret tt
  | JWritePump conn ticks => _ <- writeConnectionPump conn ticks ;; ret tt
  | JDispatcher choices => _ <- messageDispatcher choices ;; ret tt
  | JAdvertise => advertise
  end.

Definition BufferId_eqb (a b : BufferId) : bool :=
  match a, b with
  | BroadcastBuf, BroadcastBuf => true
  | ControlBuf, ControlBuf => true
  | _, _ => false
  end.

(** The oldest send parked on [b], and the other parked sends in order. *)
Fixpoint oldest_parked (b : BufferId) (q : list Parked)
  : option (Parked * list Parked) :=
  match q with
  | [] => None
  | p :: r =>
      if BufferId_eqb (pbuf p) b then Some (p, r)
      else match oldest_parked b r with
           | Some (p', r') => Some (p', p :: r')
           | None => None
           end
  end.

(** After a goroutine ran: it returned, or it joins the parked sends; a
    panic ends the process. *)
Definition settle (a : Act unit) (q : list Parked) : option System :=
  match a with
  | Ret _ w => Some {| world := w; sendq := q |}
  | Park w b m k => Some {| world := w; sendq := q ++ [mkParked b m k] |}
  | Panic _ => None
  end.

(** What may happen next: a goroutine starts a job, the oldest send parked
    on a buffer completes, the clock moves, a peer goes away. *)
Inductive Sched : Type :=
| Start (j : Job)
| Wake (b : BufferId)
| Clock (t : Z)
| PeerGone (h : Handle).

Definition step (s : System) (x : Sched) : option System :=
  match x with
  | Start j => settle (run_job j (world s)) (sendq s)
  | Wake b =>
      match oldest_parked b (sendq s) with
      | Some (p, rest) =>
          let c := buffer b (sock (world s)) in
          if closed c then None
          else if has_room c then
            settle (pk p (on_sock (set_buffer b (enqueue (pmsg p) c))
                            (world s))) rest
          else None
      | None => None
      end
  | Clock t =>
      Some {| world := {| sock := sock (world s);
                          net := {| now := t; dead := dead (net (world s));
                                    trace := trace (net (world s)) |} |};
              sendq := sendq s |}
  | PeerGone h => Some {| world := kill h (world s); sendq := sendq s |}
  end.

(** The system [NewNamedWebSocket] starts, in environment [n]. *)
Definition boot (name : string) (isBroadcast : bool) (n : Net) : System :=
  {| world := {| sock := fst (NewNamedWebSocket name isBroadcast); net := n |};
     sendq := [] |}.

Inductive reachable (s0 : System) : System -> Prop :=
| reach_boot : reachable s0 s0
| reach_step s x s' :
    reachable s0 s -> step s x = Some s' -> reachable s0 s'.

(** Neither buffer is closed. *)
Definition buffers_open (w : World) : Prop :=
  closed (broadcastBuffer (sock w)) = false /\
  closed (controlBuffer (sock w)) = false.

(** An outcome that keeps both buffers open, now and after every resumption
    in a world where they are open. *)
Inductive keeps_open {A} : Act A -> Prop :=
| keeps_ret a w : buffers_open w -> keeps_open (Ret a w)
| keeps_park w b m k :
    buffers_open w ->
    (forall w', buffers_open w' -> keeps_open (k w')) ->
    keeps_open (Park w b m k).

Definition preserves_open {A} (c : M A) : Prop :=
  forall w, buffers_open w -> keeps_open (c w).

Definition system_open (s : System) : Prop :=
  buffers_open (world s) /\
  Forall (fun p => forall w, buffers_open w -> keeps_open (pk p w)) (sendq s).

(** The system after a schedule, if no step of it is refused. *)
Fixpoint run_schedule (s : System) (xs : list Sched) : option System :=
  match xs with
  | [] => Some s
  | x :: r =>
      match step s x with
      | Some s' => run_schedule s' r
      | None => None
      end
  end.

(** ** Vocabulary for the properties of the pumps and the set *)

(** The connection set without the first connection on stream [h]. *)
Fixpoint remove_first (h : Handle) (l : list Connection) : list Connection :=
  match l with
  | [] => []
  | c :: r => if ws c =? h then r else c :: remove_first h r
  end.

(** The streams of a connection set, in order. *)
Definition handles (l : list Connection) : list Handle := map ws l.

(** The connect notification of [conn]. *)
Definition wsConnect (conn : Connection) : WSMessage :=
  {| source := conn; payload := connectPayload |}.

(** The frames a relay of [m] writes for the connection set [l]. *)
Definition recipient_frames (m : WSMessage) (l : list Connection)
  : list (Handle * MessageType * string) :=
  map (fun c => (ws c, TextMessage, payload m)) (filter (spec_recipient m) l).

(** A payload the read limit lets through. *)
Definition within_limit (p : string) : bool :=
  negb (maxMessageSize <? Z.of_nat (String.length p))%Z.

(** An incoming item that keeps the read pump in its loop. *)
Definition quiet (i : Incoming) : bool :=
  match i with
  | InData p => within_limit p
  | InPong => true
  | InError => false
  end.

(** The messages the read pump of [conn] makes of the data frames. *)
Fixpoint accepted (conn : Connection) (incoming : list Incoming)
  : list WSMessage :=
  match incoming with
  | [] => []
  | InData p :: r => {| source := conn; payload := p |} :: accepted conn r
  | _ :: r => accepted conn r
  end.

(** The deadline refreshes of the pong handler, one for each pong. *)
Fixpoint pong_events (t : Z) (h : Handle) (incoming : list Incoming)
  : list Event :=
  match incoming with
  | [] => []
  | InPong :: r => EvSetReadDeadline h (t + pongWait)%Z :: pong_events t h r
  | _ :: r => pong_events t h r
  end.

(** What [readConnectionPump] does once its loop is over or waits. *)
Definition read_pump_after (conn : Connection) (st : Status) : M Status :=
  match st with
  | Exited => readConnectionPump_deferred conn ;; ret Exited
  | Running => ret Running
  end.

(** The events with which [readConnectionPump] sets the stream up. *)
Definition read_setup (t : Z) (h : Handle) : list Event :=
  [EvSetReadLimit h maxMessageSize; EvSetReadDeadline h (t + pongWait)%Z].

(** The body of the loop of [readConnectionPump]. *)
Definition read_body (conn : Connection) : Incoming -> M Ctl :=
  fun i =>
    r <- ws_ReadMessage maxMessageSize (ws_SetReadDeadline (ws conn)) i ;;
    match r with
    | GotError => ret Exit
    | GotMessage message =>
        send BroadcastBuf {| source := conn; payload := message |} ;;
        ret Next
    | StillReading => ret Next
    end.


(** A queue with [k] more messages still fits the buffer. *)
Definition fits (k : nat) (c : Chan) : Prop :=
  closed c = false /\ length (queue c) + k <= capacity c.

(** ** Invariants of the goroutine system *)

(** An outcome through which [Inv] holds of the world, now and after every
    resumption in a world where it holds, and whose parked message is one
    the buffer may hold ([ok]). *)
Inductive holds_through {A} (Inv : World -> Prop)
  (ok : BufferId -> WSMessage -> Prop) : Act A -> Prop :=
| through_ret a w : Inv w -> holds_through Inv ok (Ret a w)
| through_park w b m k :
    Inv w -> ok b m ->
    (forall w', Inv w' -> holds_through Inv ok (k w')) ->
    holds_through Inv ok (Park w b m k).

Definition maintains {A} (Inv : World -> Prop)
  (ok : BufferId -> WSMessage -> Prop) (c : M A) : Prop :=
  forall w, Inv w -> holds_through Inv ok (c w).

Definition system_inv (Inv : World -> Prop)
  (ok : BufferId -> WSMessage -> Prop) (s : System) : Prop :=
  Inv (world s) /\
  Forall (fun p => ok (pbuf p) (pmsg p) /\
                   forall w, Inv w -> holds_through Inv ok (pk p w))
    (sendq s).

(** A notification the hub itself makes: connect or disconnect, of a
    client. *)
Definition control_message (m : WSMessage) : Prop :=
  isProxy (source m) = false /\
  (payload m = connectPayload \/ payload m = disconnectPayload).

(** A frame the read limit lets through. *)
Definition small_frame (m : WSMessage) : Prop :=
  (Z.of_nat (String.length (payload m)) <= maxMessageSize)%Z.

Definition hub_message (b : BufferId) (m : WSMessage) : Prop :=
  match b with
  | ControlBuf => control_message m
  | BroadcastBuf => small_frame m
  end.

(** A buffer as [NewNamedWebSocket] made it, with what the hub puts in. *)
Definition hub_buffer (b : BufferId) (c : Chan) : Prop :=
  closed c = false /\
  capacity c = 512 /\
  length (queue c) <= 512 /\
  Forall (hub_message b) (queue c).

Definition hub_inv (w : World) : Prop :=
  forall b, hub_buffer b (buffer b (sock w)).

(** * Properties *)

(** ** The trace *)

Lemma log_nil (w : World) : log [] w = w.
Proof.
  destruct w as [s [t d tr]]; unfold log; simpl.
  now rewrite app_nil_r.
Qed.

Lemma log_log (a b : list Event) (w : World) :
  log b (log a w) = log (a ++ b) w.
Proof.
  unfold log; simpl. now rewrite app_assoc.
Qed.

Lemma skipn_length_app {X} (a b : list X) : skipn (length a) (a ++ b) = b.
Proof.
  induction a as [|x a IH]; simpl; auto.
Qed.

Lemma emitted_log (evs : list Event) (w : World) : emitted w (log evs w) = evs.
Proof.
  unfold emitted, log; simpl. apply skipn_length_app.
Qed.

Lemma emitted_on_sock f evs w : emitted w (on_sock f (log evs w)) = evs.
Proof.
  unfold emitted, on_sock, log; simpl. apply skipn_length_app.
Qed.

Lemma frames_app (a b : list Event) : frames (a ++ b) = frames a ++ frames b.
Proof.
  induction a as [|e a IH]; simpl; auto.
  destruct e; simpl; auto. now rewrite IH.
Qed.

Lemma closes_app (a b : list Event) : closes (a ++ b) = closes a ++ closes b.
Proof.
  induction a as [|e a IH]; simpl; auto.
  destruct e; simpl; auto. now rewrite IH.
Qed.

Lemma write_eq (conn : Connection) (mt : MessageType) (p : string) (w : World) :
  write conn mt p w = Ret tt (log (write_events (net w) conn mt p) w).
Proof.
  unfold write, write_events, bind, ws_SetWriteDeadline, ws_WriteMessage,
    modify, ret; simpl.
  now rewrite log_log.
Qed.

(** A [range] loop whose body only appends events that depend on the clock
    and the dead streams appends them element by element. *)
Lemma for_range_log {X} (body : X -> M unit)
  (ev : Z -> list Handle -> X -> list Event) :
  (forall x w, body x w = Ret tt (log (ev (now (net w)) (dead (net w)) x) w)) ->
  forall (l : list X) (w : World),
    for_range l body w
    = Ret tt (log (flat_map (ev (now (net w)) (dead (net w))) l) w).
Proof.
  intros Hbody l; induction l as [|x l IH]; intros w; simpl.
  - unfold ret. now rewrite log_nil.
  - unfold bind. rewrite Hbody; simpl. rewrite IH; simpl.
    now rewrite log_log.
Qed.

(** ** Broadcast *)

Lemma broadcast_eq (m : WSMessage) (w : World) :
  broadcast m w
  = Ret tt (log (flat_map (broadcast_events m (now (net w)) (dead (net w)))
                   (connections (sock w))) w).
Proof.
  unfold broadcast.
  apply (for_range_log _ (broadcast_events m)).
  intros x v; unfold broadcast_events.
  destruct (negb (ws x =? ws (source m))).
  - destruct (isProxy x && isProxy (source m)).
    + unfold ret. now rewrite log_nil.
    + now rewrite write_eq.
  - unfold ret. now rewrite log_nil.
Qed.

Lemma code_recipient_spec (m : WSMessage) (c : Connection) :
  (negb (ws c =? ws (source m)) && negb (isProxy c && isProxy (source m)))
  = spec_recipient m c.
Proof.
  unfold spec_recipient. now rewrite (andb_comm (isProxy c)).
Qed.

Lemma broadcast_frames (m : WSMessage) (t : Z) (d : list Handle)
  (l : list Connection) :
  frames (flat_map (broadcast_events m t d) l)
  = map (fun c => (ws c, TextMessage, payload m)) (filter (spec_recipient m) l).
Proof.
  induction l as [|c l IH]; simpl; auto.
  rewrite frames_app, IH, <- code_recipient_spec.
  unfold broadcast_events.
  destruct (negb (ws c =? ws (source m))); simpl; auto.
  destruct (isProxy c && isProxy (source m)); simpl; auto.
Qed.

(** C4. Proxy loop prevention. [broadcast m] returns without touching the
    channel, and the frames it writes are exactly one text frame carrying
    [m]'s payload for each connection of the set, in order, that the
    specification names as a recipient: every connection whose stream is not
    the source's, unless source and candidate are both proxies. So a proxy
    source never reaches a proxy, and client to client, client to proxy and
    proxy to client are all delivered. *)
Theorem broadcast_proxy_loop_prevention (m : WSMessage) (w : World) :
  exists w',
    broadcast m w = Ret tt w' /\
    sock w' = sock w /\
    frames (emitted w w')
    = map (fun c => (ws c, TextMessage, payload m))
        (filter (spec_recipient m) (connections (sock w))) /\
    (forall c,
        isProxy (source m) = true -> isProxy c = true ->
        spec_recipient m c = false) /\
    (forall c,
        ws c <> ws (source m) ->
        isProxy (source m) = false \/ isProxy c = false ->
        spec_recipient m c = true).
Proof.
  eexists; split; [apply broadcast_eq|].
  split; [reflexivity|].
  split; [rewrite emitted_log; apply broadcast_frames|].
  unfold spec_recipient; split.
  - intros c Hs Hc. rewrite Hs, Hc. apply andb_false_r.
  - intros c Hne Hp.
    apply Nat.eqb_neq in Hne. rewrite Hne; simpl.
    destruct Hp as [Hp|Hp]; rewrite Hp; simpl; auto using andb_false_r.
    now rewrite andb_false_r.
Qed.

(** C5. No self-delivery. No frame that [broadcast m] writes goes to the
    stream of [m]'s source. *)
Theorem broadcast_no_self_delivery (m : WSMessage) (w : World) :
  exists w',
    broadcast m w = Ret tt w' /\
    forall mt p, ~ In (ws (source m), mt, p) (frames (emitted w w')).
Proof.
  eexists; split; [apply broadcast_eq|].
  intros mt p. rewrite emitted_log, broadcast_frames.
  intros Hin. apply in_map_iff in Hin.
  destruct Hin as [c [Heq Hc]].
  apply filter_In in Hc. destruct Hc as [_ Hc].
  unfold spec_recipient in Hc.
  apply andb_true_iff in Hc. destruct Hc as [Hne _].
  apply negb_true_iff, Nat.eqb_neq in Hne.
  injection Heq as Hws _ _. contradiction.
Qed.

(** ** Admission *)

Lemma addConnection_notify_eq (conn : Connection) (w : World) :
  for_range (connections (sock w)) (fun oConn =>
    if negb (isProxy conn) || (isProxy conn && negb (isProxy oConn))
    then write conn TextMessage connectPayload
    else ret tt) w
  = Ret tt (log (flat_map (visibility_events conn (now (net w)) (dead (net w)))
                   (connections (sock w))) w).
Proof.
  apply (for_range_log _ (visibility_events conn)).
  intros x v; unfold visibility_events.
  destruct (negb (isProxy conn) || (isProxy conn && negb (isProxy x))).
  - now rewrite write_eq.
  - unfold ret. now rewrite log_nil.
Qed.

Lemma code_visible_spec (conn oConn : Connection) :
  negb (isProxy conn) || (isProxy conn && negb (isProxy oConn))
  = spec_visible conn oConn.
Proof.
  unfold spec_visible. now destruct (isProxy conn), (isProxy oConn).
Qed.

Lemma visibility_frames (conn : Connection) (t : Z) (d : list Handle)
  (l : list Connection) :
  frames (flat_map (visibility_events conn t d) l)
  = map (fun _ => (ws conn, TextMessage, connectPayload))
      (filter (spec_visible conn) l).
Proof.
  induction l as [|o l IH]; simpl; auto.
  rewrite frames_app, IH, <- code_visible_spec.
  unfold visibility_events.
  destruct (negb (isProxy conn) || (isProxy conn && negb (isProxy o)));
    simpl; auto.
Qed.

(** What [addConnection] leaves behind when it runs to its end. *)
Lemma addConnection_eq (conn : Connection) (w : World) :
  can_announce conn w ->
  exists w',
    addConnection conn w = Ret tt w' /\
    connections (sock w') = connections (sock w) ++ [conn] /\
    emitted w w'
    = flat_map (visibility_events conn (now (net w)) (dead (net w)))
        (connections (sock w)) /\
    broadcastBuffer (sock w') = broadcastBuffer (sock w) /\
    controlBuffer (sock w')
    = (if isProxy conn then controlBuffer (sock w)
       else enqueue {| source := conn; payload := connectPayload |}
              (controlBuffer (sock w))).
Proof.
  intros Hcan. unfold addConnection, bind.
  rewrite addConnection_notify_eq; simpl.
  destruct (isProxy conn) eqn:Hp; simpl.
  - eexists; split; [reflexivity|]. simpl.
    repeat split; auto. apply emitted_on_sock.
  - destruct Hcan as [Hc|[Hopen Hroom]]; [congruence|].
    unfold send; simpl. rewrite Hopen, Hroom; simpl.
    eexists; split; [reflexivity|]. simpl.
    repeat split; auto.
    unfold emitted; simpl. apply skipn_length_app.
Qed.

Lemma filter_all {X} (l : list X) : filter (fun _ => true) l = l.
Proof.
  induction l as [|x l IH]; simpl; congruence.
Qed.

(** C6. Visibility on admission. When [addConnection conn] runs to its end,
    every frame it writes is a connect notification to [conn]'s own stream;
    a proxy [conn] gets one for each non-proxy connection already in the
    set and none for the proxies, a non-proxy [conn] gets one for each
    connection already in the set, proxy or not. *)
Theorem addConnection_visibility (conn : Connection) (w : World) :
  can_announce conn w ->
  exists w',
    addConnection conn w = Ret tt w' /\
    frames (emitted w w')
    = map (fun _ => (ws conn, TextMessage, connectPayload))
        (filter (spec_visible conn) (connections (sock w))) /\
    (isProxy conn = true ->
     frames (emitted w w')
     = map (fun _ => (ws conn, TextMessage, connectPayload))
         (filter (fun oConn => negb (isProxy oConn)) (connections (sock w)))) /\
    (isProxy conn = false ->
     frames (emitted w w')
     = map (fun _ => (ws conn, TextMessage, connectPayload))
         (connections (sock w))).
Proof.
  intros Hcan.
  destruct (addConnection_eq conn w Hcan) as [w' [Hrun [_ [Hev _]]]].
  exists w'; split; [exact Hrun|].
  rewrite Hev, visibility_frames.
  split; [reflexivity|]. unfold spec_visible. split; intros Hp; rewrite Hp.
  - reflexivity.
  - now rewrite filter_all.
Qed.

Lemma addConnection_visibility_witness :
  let A := {| ws := 1; isProxy := false |} in
  let P := {| ws := 2; isProxy := true |} in
  let Q := {| ws := 3; isProxy := true |} in
  let w := {| sock := set_connections [A; P]
                        (fst (NewNamedWebSocket "chat"%string true));
              net := {| now := 0%Z; dead := []; trace := [] |} |} in
  can_announce Q w /\
  exists w',
    addConnection Q w = Ret tt w' /\
    frames (emitted w w') = [(3, TextMessage, connectPayload)].
Proof.
  intros A P Q w.
  assert (Hcan : can_announce Q w) by (left; reflexivity).
  split; [exact Hcan|].
  destruct (addConnection_visibility Q w Hcan) as [w' [Hrun [Hfr _]]].
  exists w'; split; [exact Hrun|]. exact Hfr.
Defined.

(** C7. The append comes last. When [addConnection conn] runs to its end
    the set is the old set followed by [conn], and the notifications written
    to [conn] are those of the old set: none when the channel was empty, and
    for a non-proxy [conn] one fewer than the new set, which holds [conn]
    itself, would give. *)
Theorem addConnection_appends_last (conn : Connection) (w : World) :
  can_announce conn w ->
  exists w',
    addConnection conn w = Ret tt w' /\
    connections (sock w') = connections (sock w) ++ [conn] /\
    frames (emitted w w')
    = map (fun _ => (ws conn, TextMessage, connectPayload))
        (filter (spec_visible conn) (connections (sock w))) /\
    (connections (sock w) = [] -> emitted w w' = []) /\
    (isProxy conn = false ->
     length (filter (spec_visible conn) (connections (sock w')))
     = S (length (frames (emitted w w')))).
Proof.
  intros Hcan.
  destruct (addConnection_eq conn w Hcan) as [w' [Hrun [Hset [Hev _]]]].
  exists w'; split; [exact Hrun|]. split; [exact Hset|].
  rewrite Hev, visibility_frames.
  split; [reflexivity|]. split.
  - intros Hnil. now rewrite Hnil.
  - intros Hp. rewrite Hset. unfold spec_visible. rewrite Hp.
    rewrite !filter_all, length_map, length_app; simpl. lia.
Qed.

Lemma addConnection_appends_last_witness :
  let A := {| ws := 1; isProxy := false |} in
  let B := {| ws := 2; isProxy := false |} in
  let w := {| sock := set_connections [A]
                        (fst (NewNamedWebSocket "chat"%string false));
              net := {| now := 0%Z; dead := []; trace := [] |} |} in
  can_announce B w /\
  exists w',
    addConnection B w = Ret tt w' /\
    connections (sock w') = [A; B] /\
    frames (emitted w w') = [(2, TextMessage, connectPayload)].
Proof.
  intros A B w.
  assert (Hcan : can_announce B w) by (right; split; reflexivity).
  split; [exact Hcan|].
  destruct (addConnection_appends_last B w Hcan) as [w' [Hrun [Hset [Hfr _]]]].
  exists w'; split; [exact Hrun|]. split; [exact Hset|exact Hfr].
Defined.

(** ** The endpoint *)

(** C8. A request whose method is not GET is answered with the client error
    405 "Method not allowed"; [serve] returns without a connection and the
    world (connection set, buffers, streams) is as before. *)
Theorem serve_rejects_other_methods
  (r : Request) (up : Upgrade) (incoming : list Incoming) (w : World) :
  Method r <> "GET"%string ->
  serve r up incoming w = Ret (HttpError "Method not allowed"%string 405) w /\
  client_error 405.
Proof.
  intros Hm. unfold serve.
  apply String.eqb_neq in Hm. rewrite Hm; simpl.
  split; [reflexivity|]. unfold client_error; lia.
Qed.

Lemma serve_rejects_other_methods_witness :
  let r := {| Method := "POST"%string;
              Header := [("X-BroadcastWebSocket-Proxy"%string, "true"%string)] |} in
  let w := {| sock := fst (NewNamedWebSocket "chat"%string true);
              net := {| now := 0%Z; dead := []; trace := [] |} |} in
  Method r <> "GET"%string /\
  serve r (Upgraded 7) [InData "hi"%string] w
  = Ret (HttpError "Method not allowed"%string 405) w.
Proof.
  intros r w.
  assert (Hm : Method r <> "GET"%string) by (simpl; discriminate).
  split; [exact Hm|].
  exact (proj1 (serve_rejects_other_methods r (Upgraded 7)
                  [InData "hi"%string] w Hm)).
Defined.

(** ** Constants *)

(** C9. The read deadline is 60 s, the ping period 9/10 of it, 54 s, the
    write deadline 10 s, the read limit 1024 bytes, and a new channel has
    two buffers of capacity 512; [write] sets its deadline 10 s ahead. *)
Theorem protocol_constants (name : string) (isBroadcast : bool) :
  pongWait = (60 * Second)%Z /\
  pingPeriod = (54 * Second)%Z /\
  (pingPeriod * 10 = pongWait * 9)%Z /\
  writeWait = (10 * Second)%Z /\
  maxMessageSize = 1024%Z /\
  capacity (broadcastBuffer (fst (NewNamedWebSocket name isBroadcast))) = 512 /\
  capacity (controlBuffer (fst (NewNamedWebSocket name isBroadcast))) = 512 /\
  (forall conn mt p w,
      hd_error (write_events (net w) conn mt p)
      = Some (EvSetWriteDeadline (ws conn) (now (net w) + 10 * Second)%Z)).
Proof.
  repeat split; reflexivity.
Qed.

(** ** Removal *)

Lemma removeConnection_client_eq (conn : Connection) (w : World) :
  isProxy conn = false ->
  closed (controlBuffer (sock w)) = false ->
  has_room (controlBuffer (sock w)) = true ->
  exists w',
    removeConnection conn w = Ret tt w' /\
    controlBuffer (sock w') = enqueue (wsDisconnect conn) (controlBuffer (sock w)) /\
    net w' = net w.
Proof.
  intros Hp Hopen Hroom.
  unfold removeConnection, bind, modify; simpl. rewrite Hp; simpl.
  unfold send.
  destruct (index_ws (ws conn) (connections (sock w))); simpl;
    rewrite Hopen, Hroom; eexists; split; try reflexivity; auto.
Qed.

(** For a proxy, removal of a connection that is not in the set does
    nothing. *)
Lemma removeConnection_proxy_absent (conn : Connection) (w : World) :
  isProxy conn = true ->
  index_ws (ws conn) (connections (sock w)) = None ->
  removeConnection conn w = Ret tt w.
Proof.
  intros Hp Habs.
  unfold removeConnection, bind, modify; simpl.
  now rewrite Habs, Hp.
Qed.

Lemma splice_out_middle (before after : list Connection) (conn : Connection) :
  splice_out (length before) (before ++ conn :: after) = before ++ after.
Proof.
  induction before as [|o r IH]; simpl.
  - reflexivity.
  - unfold splice_out in *; simpl. now f_equal.
Qed.

(** The first removal of a client that is in the set takes it out, keeps
    the others in order, and enqueues one disconnect notification. *)
Lemma removeConnection_client_present
  (conn : Connection) (before after : list Connection) (w : World) :
  isProxy conn = false ->
  closed (controlBuffer (sock w)) = false ->
  has_room (controlBuffer (sock w)) = true ->
  index_ws (ws conn) before = None ->
  connections (sock w) = before ++ conn :: after ->
  exists w',
    removeConnection conn w = Ret tt w' /\
    connections (sock w') = before ++ after /\
    queue (controlBuffer (sock w'))
    = queue (controlBuffer (sock w)) ++ [wsDisconnect conn].
Proof.
  intros Hp Hopen Hroom Hb Hset.
  assert (Hi : index_ws (ws conn) (connections (sock w))
               = Some (length before)).
  { rewrite Hset. clear Hset. induction before as [|o r IH]; simpl.
    - now rewrite Nat.eqb_refl.
    - simpl in Hb. destruct (ws o =? ws conn); [discriminate|].
      destruct (index_ws (ws conn) r); [discriminate|].
      now rewrite (IH eq_refl). }
  unfold removeConnection, bind, modify; simpl.
  rewrite Hi, Hp; simpl. unfold send; simpl. rewrite Hopen, Hroom.
  eexists; split; [reflexivity|]. simpl. split; [|reflexivity].
  rewrite Hset. apply splice_out_middle.
Qed.

(** C1. Removal is not idempotent for a client. With the control buffer
    open and two free places, calling [removeConnection] twice on a
    non-proxy connection returns and leaves two disconnect notifications
    on the control buffer; and one call on a connection that is not in the
    set still enqueues one. *)
Theorem removeConnection_twice_two_disconnects (conn : Connection) (w : World) :
  isProxy conn = false ->
  closed (controlBuffer (sock w)) = false ->
  S (length (queue (controlBuffer (sock w)))) < capacity (controlBuffer (sock w)) ->
  (exists w',
      (removeConnection conn ;; removeConnection conn) w = Ret tt w' /\
      queue (controlBuffer (sock w'))
      = queue (controlBuffer (sock w)) ++ [wsDisconnect conn; wsDisconnect conn]) /\
  (index_ws (ws conn) (connections (sock w)) = None ->
   exists w',
     removeConnection conn w = Ret tt w' /\
     connections (sock w') = connections (sock w) /\
     queue (controlBuffer (sock w'))
     = queue (controlBuffer (sock w)) ++ [wsDisconnect conn]).
Proof.
  intros Hp Hopen Hcap.
  assert (Hroom : has_room (controlBuffer (sock w)) = true).
  { unfold has_room. apply Nat.ltb_lt. lia. }
  split.
  - destruct (removeConnection_client_eq conn w Hp Hopen Hroom)
      as [w1 [Hrun1 [Hctl1 _]]].
    assert (Hopen1 : closed (controlBuffer (sock w1)) = false)
      by (rewrite Hctl1; exact Hopen).
    assert (Hroom1 : has_room (controlBuffer (sock w1)) = true).
    { unfold has_room. rewrite Hctl1; simpl. rewrite length_app; simpl.
      apply Nat.ltb_lt. lia. }
    destruct (removeConnection_client_eq conn w1 Hp Hopen1 Hroom1)
      as [w2 [Hrun2 [Hctl2 _]]].
    exists w2. unfold bind. rewrite Hrun1; simpl. split; [exact Hrun2|].
    rewrite Hctl2, Hctl1; simpl. now rewrite <- app_assoc.
  - intros Habs.
    unfold removeConnection, bind, modify; simpl.
    rewrite Habs, Hp; simpl. unfold send; simpl. rewrite Hopen, Hroom.
    eexists; split; [reflexivity|]. split; reflexivity.
Qed.

Lemma removeConnection_twice_two_disconnects_witness :
  let A := {| ws := 1; isProxy := false |} in
  let B := {| ws := 2; isProxy := false |} in
  let w := {| sock := set_connections [A; B]
                        (fst (NewNamedWebSocket "chat"%string false));
              net := {| now := 0%Z; dead := []; trace := [] |} |} in
  exists w',
    (removeConnection A ;; removeConnection A) w = Ret tt w' /\
    queue (controlBuffer (sock w')) = [wsDisconnect A; wsDisconnect A].
Proof.
  intros A B w.
  assert (Hp : isProxy A = false) by reflexivity.
  assert (Hopen : closed (controlBuffer (sock w)) = false) by reflexivity.
  assert (Hcap : S (length (queue (controlBuffer (sock w))))
                 < capacity (controlBuffer (sock w))) by (simpl; lia).
  exact (proj1 (removeConnection_twice_two_disconnects A w Hp Hopen Hcap)).
Defined.

(** ** Shutdown *)

(** C2. A closed and drained buffer makes the dispatcher panic. The receive
    yields the nil message, and reading its [source] is a nil dereference:
    no close frame is written and the loop does not return. *)
Theorem messageDispatcher_closed_buffer_panics (pref : BufferId) (w : World) :
  queue (buffer pref (sock w)) = [] ->
  closed (buffer pref (sock w)) = true ->
  messageDispatcher_iter pref w = Panic NilDereference /\
  forall rest, messageDispatcher (pref :: rest) w = Panic NilDereference.
Proof.
  intros Hq Hc.
  assert (Hiter : messageDispatcher_iter pref w = Panic NilDereference).
  { unfold messageDispatcher_iter, select, chan_recv.
    rewrite Hq, Hc. reflexivity. }
  split; [exact Hiter|].
  intros rest. unfold messageDispatcher; simpl. unfold bind.
  now rewrite Hiter.
Qed.

Lemma messageDispatcher_closed_buffer_panics_witness :
  let s := fst (NewNamedWebSocket "chat"%string false) in
  let w := {| sock := set_controlBuffer
                        {| capacity := 512; queue := []; closed := true |} s;
              net := {| now := 0%Z; dead := []; trace := [] |} |} in
  messageDispatcher_iter ControlBuf w = Panic NilDereference.
Proof.
  intros s w.
  exact (proj1 (messageDispatcher_closed_buffer_panics ControlBuf w
                  eq_refl eq_refl)).
Defined.

(** ** The write pump *)

Lemma ping_loop_eq (conn : Connection) (ticks : list Z) (w : World) :
  run_loop (fun _ : Z => write conn PingMessage ""%string ;; ret Next) ticks w
  = Ret Running (log (ping_events (net w) conn ticks) w).
Proof.
  revert w; induction ticks as [|t ticks IH]; intros w; simpl.
  - unfold ret. now rewrite log_nil.
  - unfold bind. rewrite write_eq; simpl. rewrite IH, log_log.
    reflexivity.
Qed.

Lemma ping_events_failed (n : Net) (conn : Connection) (ticks : list Z) :
  write_fails n (ws conn) = true ->
  all_writes_failed (ping_events n conn ticks).
Proof.
  intros Hf. unfold all_writes_failed, ping_events.
  induction ticks as [|t ticks IH]; simpl.
  - constructor.
  - constructor; [exact I|]. constructor; [now rewrite Hf|exact IH].
Qed.

Lemma ping_events_shape (n : Net) (conn : Connection) (ticks : list Z) :
  frames (ping_events n conn ticks)
  = map (fun _ => (ws conn, PingMessage, ""%string)) ticks /\
  closes (ping_events n conn ticks) = [] /\
  forall h, ~ In (EvTickerStop h) (ping_events n conn ticks).
Proof.
  unfold ping_events.
  induction ticks as [|t ticks [IHf [IHc IHt]]]; simpl.
  - repeat split; auto.
  - rewrite IHf. repeat split; auto.
    intros h [H|[H|H]]; try discriminate. exact (IHt h H).
Qed.

(** C3. The write pump does not stop on a failed probe. On a stream where
    every write fails, after any number of ticks the pump is still in its
    loop: each tick made one failed ping write, no stream was closed, the
    ticker was not stopped and the channel, with its connection set, is
    untouched. *)
Theorem writeConnectionPump_never_exits
  (conn : Connection) (ticks : list Z) (w : World) :
  write_fails (net w) (ws conn) = true ->
  exists w',
    writeConnectionPump conn ticks w = Ret Running w' /\
    sock w' = sock w /\
    all_writes_failed (emitted w w') /\
    frames (emitted w w')
    = map (fun _ => (ws conn, PingMessage, ""%string)) ticks /\
    closes (emitted w w') = [] /\
    ~ In (EvTickerStop (ws conn)) (emitted w w').
Proof.
  intros Hf.
  destruct (ping_events_shape (net w) conn ticks) as [Hfr [Hcl Hst]].
  unfold writeConnectionPump, modify.
  unfold bind at 1; cbn [act_bind]. unfold bind at 1.
  rewrite ping_loop_eq; cbn [act_bind]. unfold ret. rewrite log_log.
  eexists; split; [reflexivity|]. rewrite emitted_log; simpl.
  split; [reflexivity|]. split; [|split; [|split]].
  - constructor; [exact I|]. now apply ping_events_failed.
  - exact Hfr.
  - exact Hcl.
  - intros [H|H]; [discriminate|]. exact (Hst _ H).
Qed.

Lemma writeConnectionPump_never_exits_witness :
  let A := {| ws := 1; isProxy := false |} in
  let w := {| sock := set_connections [A]
                        (fst (NewNamedWebSocket "chat"%string false));
              net := {| now := 0%Z; dead := [1]; trace := [] |} |} in
  exists w',
    writeConnectionPump A [54; 108; 162]%Z w = Ret Running w' /\
    connections (sock w') = [A] /\
    closes (emitted w w') = [].
Proof.
  intros A w.
  destruct (writeConnectionPump_never_exits A [54; 108; 162]%Z w eq_refl)
    as [w' [Hrun [Hs [_ [_ [Hcl _]]]]]].
  exists w'; split; [exact Hrun|]. split; [now rewrite Hs|exact Hcl].
Defined.

(** ** No operation closes a buffer *)

Lemma keeps_open_bind {A B} (x : Act A) (f : A -> M B) :
  keeps_open x ->
  (forall a, preserves_open (f a)) ->
  keeps_open (act_bind x f).
Proof.
  intros Hx Hf; induction Hx as [a w Hw|w b m k Hw Hk IH]; simpl.
  - now apply Hf.
  - constructor; auto.
Qed.

Lemma preserves_bind {A B} (c : M A) (f : A -> M B) :
  preserves_open c ->
  (forall a, preserves_open (f a)) ->
  preserves_open (bind c f).
Proof.
  intros Hc Hf w Hw. unfold bind. apply keeps_open_bind; auto.
Qed.

Lemma preserves_ret {A} (a : A) : preserves_open (ret a).
Proof. intros w Hw. now constructor. Qed.

Lemma preserves_modify (f : World -> World) :
  (forall w, buffers_open w -> buffers_open (f w)) ->
  preserves_open (modify f).
Proof. intros Hf w Hw. constructor. now apply Hf. Qed.

Lemma open_log (evs : list Event) (w : World) :
  buffers_open w -> buffers_open (log evs w).
Proof. now intros H. Qed.

Lemma open_kill (h : Handle) (w : World) :
  buffers_open w -> buffers_open (kill h w).
Proof. now intros H. Qed.

Lemma open_set_connections (l : list Connection) (w : World) :
  buffers_open w -> buffers_open (on_sock (set_connections l) w).
Proof. now intros H. Qed.

Lemma open_enqueue (b : BufferId) (m : WSMessage) (w : World) :
  buffers_open w ->
  buffers_open (on_sock (set_buffer b (enqueue m (buffer b (sock w)))) w).
Proof.
  intros [Hb Hc]. destruct b; split; simpl; assumption.
Qed.

Lemma open_buffer (b : BufferId) (w : World) :
  buffers_open w -> closed (buffer b (sock w)) = false.
Proof. intros [Hb Hc]. now destruct b. Qed.

Lemma preserves_send (b : BufferId) (m : WSMessage) :
  preserves_open (send b m).
Proof.
  intros w Hw. unfold send; simpl.
  rewrite (open_buffer b w Hw).
  destruct (has_room (buffer b (sock w))).
  - constructor. now apply open_enqueue.
  - constructor; [exact Hw|]. intros w' Hw'. now constructor.
Qed.

Lemma preserves_run_loop {I} (body : I -> M Ctl) (events : list I) :
  (forall i, preserves_open (body i)) ->
  preserves_open (run_loop body events).
Proof.
  intros Hb; induction events as [|e es IH]; simpl.
  - apply preserves_ret.
  - apply preserves_bind; auto.
    intros [| |]; auto using preserves_ret.
Qed.

Lemma preserves_write conn mt p : preserves_open (write conn mt p).
Proof.
  intros w Hw. rewrite write_eq. constructor. now apply open_log.
Qed.

Lemma preserves_broadcast m : preserves_open (broadcast m).
Proof.
  intros w Hw. rewrite broadcast_eq. constructor. now apply open_log.
Qed.

Lemma preserves_notify conn :
  preserves_open (fun w =>
    for_range (connections (sock w)) (fun oConn =>
      if negb (isProxy conn) || (isProxy conn && negb (isProxy oConn))
      then write conn TextMessage connectPayload
      else ret tt) w).
Proof.
  intros w Hw. rewrite addConnection_notify_eq.
  constructor. now apply open_log.
Qed.

Create HintDb hub_open discriminated.

#[local] Hint Resolve open_log open_kill open_set_connections : hub_open.
#[local] Hint Resolve preserves_ret preserves_send preserves_write
  preserves_broadcast preserves_notify : hub_open.

(** One syntax-directed step of a proof that hub code keeps the buffers
    open. *)
Ltac open_step :=
  match goal with
  | |- preserves_open (bind _ _) => apply preserves_bind; [|intro]
  | |- preserves_open (modify _) => apply preserves_modify; intros ? ?
  | |- preserves_open (run_loop _ _) => apply preserves_run_loop; intro
  | |- preserves_open (ws_ReadMessage _ _ _) => unfold ws_ReadMessage
  | |- preserves_open (match ?x with _ => _ end) => destruct x
  | |- buffers_open (match ?x with _ => _ end) => destruct x
  | |- preserves_open _ => solve [auto with hub_open]
  | |- buffers_open _ => solve [auto with hub_open]
  end.

Ltac open_auto := repeat open_step.

Lemma preserves_addConnection conn : preserves_open (addConnection conn).
Proof. unfold addConnection. open_auto. Qed.

Lemma preserves_removeConnection conn :
  preserves_open (removeConnection conn).
Proof. unfold removeConnection. open_auto. Qed.

Lemma preserves_ws_Close h : preserves_open (ws_Close h).
Proof. unfold ws_Close. open_auto. Qed.

Lemma preserves_ws_SetReadDeadline h : preserves_open (ws_SetReadDeadline h).
Proof. intros w Hw. constructor. now apply open_log. Qed.

#[local] Hint Resolve preserves_addConnection preserves_removeConnection
  preserves_ws_Close preserves_ws_SetReadDeadline : hub_open.

Lemma preserves_readConnectionPump conn incoming :
  preserves_open (readConnectionPump conn incoming).
Proof.
  unfold readConnectionPump, readConnectionPump_deferred. open_auto.
Qed.

Lemma preserves_writeConnectionPump conn ticks :
  preserves_open (writeConnectionPump conn ticks).
Proof.
  unfold writeConnectionPump, writeConnectionPump_deferred. open_auto.
Qed.

#[local] Hint Resolve preserves_readConnectionPump : hub_open.

Lemma preserves_serve r up incoming : preserves_open (serve r up incoming).
Proof. unfold serve. open_auto. Qed.

Lemma preserves_advertise : preserves_open advertise.
Proof. unfold advertise. open_auto. Qed.

(** ** The dispatcher while the buffers are open *)

Lemma chan_recv_open (c : Chan) :
  closed c = false ->
  chan_recv c = RecvWaits \/
  exists m c', chan_recv c = Received (Some m) true c' /\ closed c' = false.
Proof.
  intros Hc. unfold chan_recv. destruct (queue c) as [|m q].
  - rewrite Hc. now left.
  - right. eexists; eexists; split; [reflexivity|exact Hc].
Qed.

Lemma open_set_buffer (b : BufferId) (c' : Chan) (w : World) :
  buffers_open w -> closed c' = false ->
  buffers_open (on_sock (set_buffer b c') w).
Proof.
  intros [Hb Hc] Hc'. destruct b; split; simpl; assumption.
Qed.

Lemma dispatch_received (b : BufferId) (m : WSMessage) (c' : Chan) (w : World) :
  buffers_open w -> closed c' = false ->
  exists w',
    (modify (on_sock (set_buffer b c')) ;; dispatch_case (Some m) true) w
    = Ret Next w' /\ buffers_open w'.
Proof.
  intros Hw Hc'.
  unfold dispatch_case, modify; simpl.
  unfold bind at 1; cbn [act_bind]. unfold deref.
  unfold bind at 1; unfold ret at 1; cbn [act_bind].
  unfold bind at 1. rewrite broadcast_eq; cbn [act_bind]. unfold ret.
  eexists; split; [reflexivity|].
  apply open_log. now apply open_set_buffer.
Qed.

Lemma messageDispatcher_iter_open (pref : BufferId) (w : World) :
  buffers_open w ->
  messageDispatcher_iter pref w = Ret Stall w \/
  exists w', messageDispatcher_iter pref w = Ret Next w' /\ buffers_open w'.
Proof.
  intros Hw. unfold messageDispatcher_iter, select.
  destruct (chan_recv_open _ (open_buffer pref w Hw))
    as [Hr|[m [c' [Hr Hc']]]]; rewrite Hr.
  - destruct (chan_recv_open _ (open_buffer (other_buffer pref) w Hw))
      as [Hr2|[m [c' [Hr2 Hc']]]]; rewrite Hr2.
    + now left.
    + right. now apply dispatch_received.
  - right. now apply dispatch_received.
Qed.

Lemma messageDispatcher_open (choices : list BufferId) (w : World) :
  buffers_open w ->
  exists w', messageDispatcher choices w = Ret Running w' /\ buffers_open w'.
Proof.
  unfold messageDispatcher.
  revert w; induction choices as [|pref choices IH]; intros w Hw; simpl.
  - exists w. now split.
  - unfold bind.
    destruct (messageDispatcher_iter_open pref w Hw) as [Hs|[w1 [Hn Hw1]]].
    + rewrite Hs; simpl. exists w. now split.
    + rewrite Hn; simpl. now apply IH.
Qed.

Lemma preserves_messageDispatcher choices :
  preserves_open (messageDispatcher choices).
Proof.
  intros w Hw.
  destruct (messageDispatcher_open choices w Hw) as [w' [Hrun Hw']].
  rewrite Hrun. now constructor.
Qed.

Lemma preserves_run_job (j : Job) : preserves_open (run_job j).
Proof.
  destruct j; simpl.
  - apply preserves_bind; [apply preserves_serve|intros _; apply preserves_ret].
  - apply preserves_addConnection.
  - apply preserves_removeConnection.
  - apply preserves_bind;
      [apply preserves_readConnectionPump|intros _; apply preserves_ret].
  - apply preserves_bind;
      [apply preserves_writeConnectionPump|intros _; apply preserves_ret].
  - apply preserves_bind;
      [apply preserves_messageDispatcher|intros _; apply preserves_ret].
  - apply preserves_advertise.
Qed.

(** ** The invariant of the system *)

Lemma settle_open (a : Act unit) (q : list Parked) (s : System) :
  keeps_open a ->
  Forall (fun p => forall w, buffers_open w -> keeps_open (pk p w)) q ->
  settle a q = Some s ->
  system_open s.
Proof.
  intros Ha Hq Hs. destruct Ha as [u w Hw|w b m k Hw Hk]; simpl in Hs;
    injection Hs as <-; split; simpl; auto.
  apply Forall_app; split; auto.
Qed.

Lemma oldest_parked_Forall (P : Parked -> Prop) (b : BufferId)
  (q : list Parked) (p : Parked) (rest : list Parked) :
  Forall P q ->
  oldest_parked b q = Some (p, rest) ->
  P p /\ Forall P rest.
Proof.
  revert p rest; induction q as [|x q IH]; intros p rest Hq Ho; simpl in Ho.
  - discriminate.
  - inversion Hq as [|? ? Hx Hq']; subst.
    destruct (BufferId_eqb (pbuf x) b).
    + injection Ho as <- <-. now split.
    + destruct (oldest_parked b q) as [[p' r']|]; [|discriminate].
      injection Ho as <- <-.
      destruct (IH p' r' Hq' eq_refl) as [Hp Hr]. split; auto.
Qed.

Lemma boot_open (name : string) (isBroadcast : bool) (n : Net) :
  system_open (boot name isBroadcast n).
Proof.
  split; simpl; [split; reflexivity|constructor].
Qed.

Lemma step_open (s s' : System) (x : Sched) :
  system_open s -> step s x = Some s' -> system_open s'.
Proof.
  intros [Hw Hq] Hstep. destruct x as [j|b|t|h]; simpl in Hstep.
  - apply (settle_open _ _ _ (preserves_run_job j _ Hw) Hq Hstep).
  - destruct (oldest_parked b (sendq s)) as [[p rest]|] eqn:Ho;
      [|discriminate].
    destruct (oldest_parked_Forall _ _ _ _ _ Hq Ho) as [Hp Hrest].
    rewrite (open_buffer b _ Hw) in Hstep.
    destruct (has_room (buffer b (sock (world s)))); [|discriminate].
    apply (settle_open _ _ _ (Hp _ (open_enqueue b (pmsg p) _ Hw)) Hrest Hstep).
  - injection Hstep as <-. split; auto.
  - injection Hstep as <-. split; auto.
Qed.

Lemma reachable_open (s0 s : System) :
  system_open s0 -> reachable s0 s -> system_open s.
Proof.
  intros H0 Hr; induction Hr as [|s x s' _ IH Hstep]; auto.
  exact (step_open _ _ _ IH Hstep).
Qed.

(** C10. No operation closes a buffer. In every state the system reaches
    from a new channel both buffers are open, so no iteration of the
    dispatcher takes the closed-buffer branch: it relays a message or finds
    both buffers empty, and the dispatcher, however long it runs, is still
    in its loop. *)
Theorem buffers_never_closed
  (name : string) (isBroadcast : bool) (n : Net) (s : System) :
  reachable (boot name isBroadcast n) s ->
  buffers_open (world s) /\
  (forall pref,
      messageDispatcher_iter pref (world s) = Ret Stall (world s) \/
      exists w', messageDispatcher_iter pref (world s) = Ret Next w') /\
  (forall choices,
      exists w', messageDispatcher choices (world s) = Ret Running w').
Proof.
  intros Hr.
  destruct (reachable_open _ _ (boot_open name isBroadcast n) Hr) as [Hw _].
  split; [exact Hw|]. split.
  - intros pref.
    destruct (messageDispatcher_iter_open pref _ Hw) as [Hs|[w' [Hn _]]];
      [now left|right; now exists w'].
  - intros choices.
    destruct (messageDispatcher_open choices _ Hw) as [w' [Hrun _]].
    now exists w'.
Qed.

Lemma run_schedule_reachable (s0 s s' : System) (xs : list Sched) :
  reachable s0 s -> run_schedule s xs = Some s' -> reachable s0 s'.
Proof.
  revert s; induction xs as [|x xs IH]; intros s Hr Hrun; simpl in Hrun.
  - now injection Hrun as <-.
  - destruct (step s x) as [s1|] eqn:Hstep; [|discriminate].
    apply (IH s1); [|exact Hrun].
    now apply (reach_step s0 s x s1).
Qed.

Lemma buffers_never_closed_witness :
  let n0 := {| now := 0%Z; dead := []; trace := [] |} in
  let get := {| Method := "GET"%string; Header := [] |} in
  let A := {| ws := 1; isProxy := false |} in
  let schedule :=
    [Start (JServe get (Upgraded 1) [InData "hi"%string]);
     Start (JServe get (Upgraded 2) []);
     Start (JDispatcher [ControlBuf; BroadcastBuf]);
     Start (JReadPump A [InError]);
     Start (JDispatcher [BroadcastBuf; ControlBuf])] in
  exists s,
    run_schedule (boot "chat"%string true n0) schedule = Some s /\
    reachable (boot "chat"%string true n0) s /\
    buffers_open (world s).
Proof.
  intros n0 get A schedule.
  destruct (run_schedule (boot "chat"%string true n0) schedule)
    as [s|] eqn:Hrun; [|vm_compute in Hrun; discriminate].
  exists s. split; [reflexivity|].
  assert (Hr : reachable (boot "chat"%string true n0) s)
    by (apply (run_schedule_reachable _ _ _ schedule (reach_boot _) Hrun)).
  split; [exact Hr|].
  exact (proj1 (buffers_never_closed "chat"%string true n0 s Hr)).
Defined.

(** ** The model on the scenarios of the specification *)

(** When the control buffer is full, a client's admission parks in the
    send with its notifications written and the set not yet extended; the
    append is what remains to be done. *)
Lemma addConnection_parks_before_append (conn : Connection) (w : World) :
  isProxy conn = false ->
  closed (controlBuffer (sock w)) = false ->
  has_room (controlBuffer (sock w)) = false ->
  exists w1 k,
    addConnection conn w
    = Park w1 ControlBuf {| source := conn; payload := connectPayload |} k /\
    connections (sock w1) = connections (sock w) /\
    emitted w w1
    = flat_map (visibility_events conn (now (net w)) (dead (net w)))
        (connections (sock w)) /\
    forall w2,
      k w2 = Ret tt (on_sock (set_connections (connections (sock w2) ++ [conn])) w2).
Proof.
  intros Hp Hopen Hroom. unfold addConnection.
  unfold bind at 1. rewrite addConnection_notify_eq; cbn [act_bind].
  rewrite Hp; simpl. unfold bind, send; simpl. rewrite Hopen, Hroom; simpl.
  eexists; eexists; split; [reflexivity|].
  split; [reflexivity|]. split; [apply emitted_log|]. reflexivity.
Qed.

(** Channel "chat" with A and B (clients) and P (a proxy): "hi" from A goes
    to B and P, "remote-hi" from P to A and B. *)
Example end_to_end_scenario :
  let A := {| ws := 1; isProxy := false |} in
  let B := {| ws := 2; isProxy := false |} in
  let P := {| ws := 3; isProxy := true |} in
  let w := {| sock := set_connections [A; B; P]
                        (fst (NewNamedWebSocket "chat"%string true));
              net := {| now := 0%Z; dead := []; trace := [] |} |} in
  (exists w',
      broadcast {| source := A; payload := "hi"%string |} w = Ret tt w' /\
      frames (emitted w w')
      = [(2, TextMessage, "hi"%string); (3, TextMessage, "hi"%string)]) /\
  (exists w',
      broadcast {| source := P; payload := "remote-hi"%string |} w = Ret tt w' /\
      frames (emitted w w')
      = [(1, TextMessage, "remote-hi"%string);
         (2, TextMessage, "remote-hi"%string)]).
Proof.
  split; eexists; split; reflexivity.
Qed.

(** * Further properties of the code *)

(** ** Removal and the connection set *)

Lemma splice_is_remove_first (h : Handle) (l : list Connection) :
  match index_ws h l with
  | Some i => splice_out i l
  | None => l
  end = remove_first h l.
Proof.
  induction l as [|c r IH]; simpl; auto.
  destruct (ws c =? h); [reflexivity|].
  destruct (index_ws h r) as [i|]; simpl.
  - now rewrite <- IH.
  - now rewrite <- IH.
Qed.

(** What [removeConnection] leaves behind when it runs to its end. *)
Lemma removeConnection_eq (conn : Connection) (w : World) :
  can_announce conn w ->
  exists w',
    removeConnection conn w = Ret tt w' /\
    connections (sock w') = remove_first (ws conn) (connections (sock w)) /\
    net w' = net w /\
    broadcastBuffer (sock w') = broadcastBuffer (sock w) /\
    controlBuffer (sock w')
    = (if isProxy conn then controlBuffer (sock w)
       else enqueue (wsDisconnect conn) (controlBuffer (sock w))).
Proof.
  intros Hcan.
  unfold removeConnection, bind, modify; cbn [act_bind].
  pose proof (splice_is_remove_first (ws conn) (connections (sock w))) as Hrm.
  destruct (isProxy conn) eqn:Hp; simpl.
  - eexists; split; [reflexivity|].
    destruct (index_ws (ws conn) (connections (sock w))); simpl;
      rewrite <- Hrm; repeat split; reflexivity.
  - destruct Hcan as [Hc|[Hopen Hroom]]; [congruence|].
    unfold send.
    destruct (index_ws (ws conn) (connections (sock w))); simpl;
      rewrite Hopen, Hroom; (eexists; split; [reflexivity|]); simpl;
      rewrite <- Hrm; repeat split; reflexivity.
Qed.

Lemma remove_first_others (h : Handle) (l : list Connection) :
  filter (fun c => negb (ws c =? h)) (remove_first h l)
  = filter (fun c => negb (ws c =? h)) l.
Proof.
  induction l as [|c r IH]; simpl; auto.
  destruct (ws c =? h) eqn:Hc; simpl.
  - reflexivity.
  - rewrite Hc; simpl. now rewrite IH.
Qed.

Lemma remove_first_length (h : Handle) (l : list Connection) :
  length (remove_first h l)
  = length l - (if existsb (fun c => ws c =? h) l then 1 else 0).
Proof.
  induction l as [|c r IH]; simpl; auto.
  destruct (ws c =? h); simpl; [lia|].
  rewrite IH. destruct (existsb (fun c0 => ws c0 =? h) r) eqn:He; [|lia].
  destruct r; simpl in *; [discriminate|lia].
Qed.

(** X1. Removal takes out one connection at most. When [removeConnection]
    runs to its end the set has lost the first connection on [conn]'s
    stream and nothing else: the connections on other streams are all
    there, in their order, and the set is shorter by one exactly when the
    stream was in it. *)
Theorem removeConnection_removes_first_only (conn : Connection) (w : World) :
  can_announce conn w ->
  exists w',
    removeConnection conn w = Ret tt w' /\
    connections (sock w') = remove_first (ws conn) (connections (sock w)) /\
    filter (fun c => negb (ws c =? ws conn)) (connections (sock w'))
    = filter (fun c => negb (ws c =? ws conn)) (connections (sock w)) /\
    length (connections (sock w'))
    = length (connections (sock w))
      - (if existsb (fun c => ws c =? ws conn) (connections (sock w))
         then 1 else 0).
Proof.
  intros Hcan.
  destruct (removeConnection_eq conn w Hcan) as [w' [Hrun [Hset _]]].
  exists w'; split; [exact Hrun|]. split; [exact Hset|].
  rewrite Hset. split; [apply remove_first_others|apply remove_first_length].
Qed.

Lemma removeConnection_removes_first_only_witness :
  let A := {| ws := 1; isProxy := false |} in
  let B := {| ws := 2; isProxy := false |} in
  let A' := {| ws := 1; isProxy := true |} in
  let w := {| sock := set_connections [B; A; A']
                        (fst (NewNamedWebSocket "chat"%string false));
              net := {| now := 0%Z; dead := []; trace := [] |} |} in
  can_announce A w /\
  exists w',
    removeConnection A w = Ret tt w' /\
    connections (sock w') = [B; A'].
Proof.
  intros A B A' w.
  assert (Hcan : can_announce A w) by (right; split; reflexivity).
  split; [exact Hcan|].
  destruct (removeConnection_removes_first_only A w Hcan)
    as [w' [Hrun [Hset _]]].
  exists w'; split; [exact Hrun|exact Hset].
Defined.

Lemma remove_first_NoDup (h : Handle) (l : list Connection) :
  NoDup (handles l) ->
  NoDup (handles (remove_first h l)) /\ ~ In h (handles (remove_first h l)).
Proof.
  unfold handles.
  induction l as [|c r IH]; simpl; intros Hnd.
  - split; [constructor|tauto].
  - inversion Hnd as [|? ? Hc Hr]; subst.
    destruct (ws c =? h) eqn:Hch.
    + apply Nat.eqb_eq in Hch; subst. now split.
    + apply Nat.eqb_neq in Hch. destruct (IH Hr) as [Hnd' Hnot].
      split; simpl.
      * constructor; [|exact Hnd'].
        intros Hin. apply Hc.
        apply in_map_iff in Hin. destruct Hin as [x [Hx Hin]].
        apply in_map_iff. exists x; split; [exact Hx|].
        assert (Hf : In x (filter (fun c0 => negb (ws c0 =? h))
                             (remove_first h r))).
        { apply filter_In; split; [exact Hin|].
          apply negb_true_iff, Nat.eqb_neq. congruence. }
        rewrite remove_first_others in Hf. now apply filter_In in Hf.
      * intros [Heq|Hin]; [contradiction|now apply Hnot].
Qed.

(** X2. After removal the stream is gone for good. In a set that holds no
    stream twice, when [removeConnection conn] runs to its end no
    connection on [conn]'s stream is left, the set still holds no stream
    twice, and a later broadcast of any message writes nothing to that
    stream. *)
Theorem removeConnection_then_no_delivery (conn : Connection) (w : World) :
  NoDup (handles (connections (sock w))) ->
  can_announce conn w ->
  exists w',
    removeConnection conn w = Ret tt w' /\
    ~ In (ws conn) (handles (connections (sock w'))) /\
    NoDup (handles (connections (sock w'))) /\
    forall m, exists w'',
      broadcast m w' = Ret tt w'' /\
      forall mt p, ~ In (ws conn, mt, p) (frames (emitted w' w'')).
Proof.
  intros Hnd Hcan.
  destruct (removeConnection_eq conn w Hcan) as [w' [Hrun [Hset _]]].
  destruct (remove_first_NoDup (ws conn) _ Hnd) as [Hnd' Hnot].
  rewrite <- Hset in Hnd', Hnot.
  exists w'; split; [exact Hrun|]. split; [exact Hnot|].
  split; [exact Hnd'|].
  intros m. eexists; split; [apply broadcast_eq|].
  intros mt p. rewrite emitted_log, broadcast_frames.
  intros Hin. apply Hnot.
  apply in_map_iff in Hin. destruct Hin as [c [Heq Hc]].
  apply filter_In in Hc. destruct Hc as [Hc _].
  apply in_map_iff. exists c; split; [congruence|exact Hc].
Qed.

Lemma removeConnection_then_no_delivery_witness :
  let A := {| ws := 1; isProxy := false |} in
  let B := {| ws := 2; isProxy := false |} in
  let w := {| sock := set_connections [A; B]
                        (fst (NewNamedWebSocket "chat"%string false));
              net := {| now := 0%Z; dead := []; trace := [] |} |} in
  NoDup (handles (connections (sock w))) /\
  exists w',
    removeConnection A w = Ret tt w' /\
    ~ In 1 (handles (connections (sock w'))).
Proof.
  intros A B w.
  assert (Hnd : NoDup (handles (connections (sock w)))).
  { simpl. constructor; [simpl; intros [H|[]]; discriminate|].
    constructor; [simpl; tauto|constructor]. }
  assert (Hcan : can_announce A w) by (right; split; reflexivity).
  split; [exact Hnd|].
  destruct (removeConnection_then_no_delivery A w Hnd Hcan)
    as [w' [Hrun [Hnot _]]].
  exists w'; split; [exact Hrun|exact Hnot].
Defined.

(** ** Admission and the connection set *)

Lemma NoDup_snoc (l : list Handle) (h : Handle) :
  NoDup (l ++ [h]) <-> NoDup l /\ ~ In h l.
Proof.
  split.
  - intros H. apply NoDup_remove in H. rewrite app_nil_r in H. exact H.
  - intros [Hnd Hnot]. induction l as [|x l IH]; simpl.
    + constructor; [tauto|constructor].
    + inversion Hnd as [|? ? Hx Hl]; subst. constructor.
      * rewrite in_app_iff. intros [Hin|[Heq|[]]]; [contradiction|].
        subst. apply Hnot. now left.
      * apply IH; [exact Hl|]. intros Hin. apply Hnot. now right.
Qed.

(** X3. Admission does not look for the stream in the set. When
    [addConnection conn] runs to its end, the set holds no stream twice
    exactly when it held none twice before and [conn]'s stream was not in
    it. *)
Theorem addConnection_unique_iff_fresh (conn : Connection) (w : World) :
  can_announce conn w ->
  exists w',
    addConnection conn w = Ret tt w' /\
    (NoDup (handles (connections (sock w'))) <->
     NoDup (handles (connections (sock w))) /\
     ~ In (ws conn) (handles (connections (sock w)))).
Proof.
  intros Hcan.
  destruct (addConnection_eq conn w Hcan) as [w' [Hrun [Hset _]]].
  exists w'; split; [exact Hrun|].
  rewrite Hset. unfold handles. rewrite map_app; simpl.
  apply NoDup_snoc.
Qed.

Lemma addConnection_unique_iff_fresh_witness :
  let A := {| ws := 1; isProxy := false |} in
  let A' := {| ws := 1; isProxy := true |} in
  let w := {| sock := set_connections [A]
                        (fst (NewNamedWebSocket "chat"%string false));
              net := {| now := 0%Z; dead := []; trace := [] |} |} in
  can_announce A' w /\
  exists w',
    addConnection A' w = Ret tt w' /\
    ~ NoDup (handles (connections (sock w'))).
Proof.
  intros A A' w.
  assert (Hcan : can_announce A' w) by (left; reflexivity).
  split; [exact Hcan|].
  destruct (addConnection_unique_iff_fresh A' w Hcan) as [w' [Hrun Hiff]].
  exists w'; split; [exact Hrun|].
  intros Hnd. apply Hiff in Hnd. destruct Hnd as [_ Hnot].
  apply Hnot. simpl. now left.
Defined.

(** X4. Proxies come and go unannounced. For a proxy connection,
    [addConnection] and [removeConnection] return in every world, also
    when the control buffer is full or closed, and leave both buffers as
    they were; removal writes nothing to any stream. *)
Theorem proxy_never_announced (conn : Connection) (w : World) :
  isProxy conn = true ->
  (exists w',
      addConnection conn w = Ret tt w' /\
      connections (sock w') = connections (sock w) ++ [conn] /\
      broadcastBuffer (sock w') = broadcastBuffer (sock w) /\
      controlBuffer (sock w') = controlBuffer (sock w)) /\
  (exists w',
      removeConnection conn w = Ret tt w' /\
      connections (sock w') = remove_first (ws conn) (connections (sock w)) /\
      broadcastBuffer (sock w') = broadcastBuffer (sock w) /\
      controlBuffer (sock w') = controlBuffer (sock w) /\
      net w' = net w).
Proof.
  intros Hp.
  assert (Hcan : can_announce conn w) by now left.
  split.
  - destruct (addConnection_eq conn w Hcan)
      as [w' [Hrun [Hset [_ [Hb Hc]]]]].
    rewrite Hp in Hc. exists w'. repeat split; assumption.
  - destruct (removeConnection_eq conn w Hcan)
      as [w' [Hrun [Hset [Hn [Hb Hc]]]]].
    rewrite Hp in Hc. exists w'. repeat split; assumption.
Qed.

Lemma proxy_never_announced_witness :
  let P := {| ws := 3; isProxy := true |} in
  let s := fst (NewNamedWebSocket "chat"%string true) in
  let w := {| sock := set_controlBuffer
                        {| capacity := 512; queue := []; closed := true |} s;
              net := {| now := 0%Z; dead := []; trace := [] |} |} in
  exists w',
    addConnection P w = Ret tt w' /\
    connections (sock w') = [P] /\
    controlBuffer (sock w') = controlBuffer (sock w).
Proof.
  intros P s w.
  destruct (proj1 (proxy_never_announced P w eq_refl))
    as [w' [Hrun [Hset [_ Hc]]]].
  exists w'; split; [exact Hrun|]. split; [exact Hset|exact Hc].
Defined.

Lemma remove_first_snoc_fresh (l : list Connection) (conn : Connection) :
  ~ In (ws conn) (handles l) ->
  remove_first (ws conn) (l ++ [conn]) = l.
Proof.
  unfold handles. induction l as [|c r IH]; simpl; intros Hnot.
  - now rewrite Nat.eqb_refl.
  - destruct (ws c =? ws conn) eqn:Hc.
    + apply Nat.eqb_eq in Hc. exfalso. apply Hnot. now left.
    + rewrite IH; [reflexivity|]. intros Hin. apply Hnot. now right.
Qed.

(** X5. Admission followed by removal. For a connection whose stream is
    not in the set, [addConnection] and then [removeConnection] give the
    set back as it was; for a client the control buffer has gained the
    connect and then the disconnect notification, for a proxy nothing. *)
Theorem admission_removal_round_trip (conn : Connection) (w : World) :
  ~ In (ws conn) (handles (connections (sock w))) ->
  isProxy conn = true \/ fits 2 (controlBuffer (sock w)) ->
  exists w',
    (addConnection conn ;; removeConnection conn) w = Ret tt w' /\
    connections (sock w') = connections (sock w) /\
    broadcastBuffer (sock w') = broadcastBuffer (sock w) /\
    queue (controlBuffer (sock w'))
    = queue (controlBuffer (sock w))
      ++ (if isProxy conn then [] else [wsConnect conn; wsDisconnect conn]).
Proof.
  intros Hfresh Hroom.
  assert (Hcan : can_announce conn w).
  { destruct Hroom as [Hp|[Hopen Hfit]]; [now left|right].
    split; [exact Hopen|]. unfold has_room. apply Nat.ltb_lt. lia. }
  destruct (addConnection_eq conn w Hcan)
    as [w1 [Hrun1 [Hset1 [_ [Hb1 Hc1]]]]].
  assert (Hcan1 : can_announce conn w1).
  { destruct Hroom as [Hp|[Hopen Hfit]]; [now left|right].
    rewrite Hc1. destruct (isProxy conn); simpl.
    - split; [exact Hopen|]. unfold has_room. apply Nat.ltb_lt. lia.
    - split; [exact Hopen|]. unfold has_room; simpl.
      rewrite length_app; simpl. apply Nat.ltb_lt. lia. }
  destruct (removeConnection_eq conn w1 Hcan1)
    as [w2 [Hrun2 [Hset2 [_ [Hb2 Hc2]]]]].
  exists w2. unfold bind. rewrite Hrun1; simpl.
  split; [exact Hrun2|].
  split; [rewrite Hset2, Hset1; now apply remove_first_snoc_fresh|].
  split; [congruence|].
  rewrite Hc2, Hc1. destruct (isProxy conn); simpl.
  - now rewrite app_nil_r.
  - now rewrite <- app_assoc.
Qed.

Lemma admission_removal_round_trip_witness :
  let A := {| ws := 1; isProxy := false |} in
  let B := {| ws := 2; isProxy := false |} in
  let w := {| sock := set_connections [A]
                        (fst (NewNamedWebSocket "chat"%string false));
              net := {| now := 0%Z; dead := []; trace := [] |} |} in
  exists w',
    (addConnection B ;; removeConnection B) w = Ret tt w' /\
    connections (sock w') = [A] /\
    queue (controlBuffer (sock w')) = [wsConnect B; wsDisconnect B].
Proof.
  intros A B w.
  assert (Hfresh : ~ In (ws B) (handles (connections (sock w))))
    by (simpl; intros [H|[]]; discriminate).
  assert (Hroom : isProxy B = true \/ fits 2 (controlBuffer (sock w)))
    by (right; split; simpl; [reflexivity|lia]).
  destruct (admission_removal_round_trip B w Hfresh Hroom)
    as [w' [Hrun [Hset [_ Hq]]]].
  exists w'; split; [exact Hrun|]. split; [exact Hset|exact Hq].
Defined.

(** ** The read pump *)

Lemma run_loop_next {I} (body : I -> M Ctl) (e : I) (es : list I)
  (w w1 : World) :
  body e w = Ret Next w1 ->
  run_loop body (e :: es) w = run_loop body es w1.
Proof.
  intros Hb. simpl. unfold bind. now rewrite Hb.
Qed.

Lemma run_loop_exit {I} (body : I -> M Ctl) (e : I) (es : list I)
  (w w1 : World) :
  body e w = Ret Exit w1 ->
  run_loop body (e :: es) w = Ret Exited w1.
Proof.
  intros Hb. simpl. unfold bind. now rewrite Hb.
Qed.

Lemma within_limit_false (p : string) :
  within_limit p = false ->
  (maxMessageSize <? Z.of_nat (String.length p))%Z = true.
Proof.
  unfold within_limit. now destruct (_ <? _)%Z.
Qed.

Lemma within_limit_true (p : string) :
  within_limit p = true ->
  (maxMessageSize <? Z.of_nat (String.length p))%Z = false.
Proof.
  unfold within_limit. now destruct (_ <? _)%Z.
Qed.

Lemma read_body_stop (conn : Connection) (i : Incoming) (w : World) :
  quiet i = false -> read_body conn i w = Ret Exit w.
Proof.
  destruct i as [p| |]; simpl; intros Hq; try discriminate.
  - unfold read_body, ws_ReadMessage, bind.
    now rewrite (within_limit_false p Hq).
  - reflexivity.
Qed.

Lemma read_body_pong (conn : Connection) (w : World) :
  read_body conn InPong w
  = Ret Next (log [EvSetReadDeadline (ws conn) (now (net w) + pongWait)%Z] w).
Proof. reflexivity. Qed.

Lemma read_body_data (conn : Connection) (p : string) (w : World) :
  within_limit p = true ->
  closed (broadcastBuffer (sock w)) = false ->
  has_room (broadcastBuffer (sock w)) = true ->
  read_body conn (InData p) w
  = Ret Next (on_sock (set_broadcastBuffer
                         (enqueue {| source := conn; payload := p |}
                            (broadcastBuffer (sock w)))) w).
Proof.
  intros Hl Hopen Hroom.
  unfold read_body, ws_ReadMessage, bind.
  rewrite (within_limit_true p Hl); simpl.
  unfold send; simpl. now rewrite Hopen, Hroom.
Qed.

Lemma read_body_full (conn : Connection) (p : string) (w : World) :
  within_limit p = true ->
  closed (broadcastBuffer (sock w)) = false ->
  has_room (broadcastBuffer (sock w)) = false ->
  read_body conn (InData p) w
  = Park w BroadcastBuf {| source := conn; payload := p |}
      (fun w' => Ret Next w').
Proof.
  intros Hl Hopen Hroom.
  unfold read_body, ws_ReadMessage, bind.
  rewrite (within_limit_true p Hl); simpl.
  unfold send; simpl. now rewrite Hopen, Hroom.
Qed.

Lemma fits_room (k : nat) (c : Chan) : fits (S k) c -> has_room c = true.
Proof.
  intros [_ H]. unfold has_room. apply Nat.ltb_lt. lia.
Qed.

(** The loop over items that keep it going: the data frames are appended
    to the broadcast buffer, the pongs refresh the deadline. *)
Lemma read_loop_quiet (conn : Connection) (pre : list Incoming) (w : World) :
  forallb quiet pre = true ->
  fits (length (accepted conn pre)) (broadcastBuffer (sock w)) ->
  exists w',
    (forall rest,
        run_loop (read_body conn) (pre ++ rest) w
        = run_loop (read_body conn) rest w') /\
    connections (sock w') = connections (sock w) /\
    controlBuffer (sock w') = controlBuffer (sock w) /\
    capacity (broadcastBuffer (sock w')) = capacity (broadcastBuffer (sock w)) /\
    closed (broadcastBuffer (sock w')) = closed (broadcastBuffer (sock w)) /\
    queue (broadcastBuffer (sock w'))
    = queue (broadcastBuffer (sock w)) ++ accepted conn pre /\
    now (net w') = now (net w) /\
    dead (net w') = dead (net w) /\
    trace (net w')
    = trace (net w) ++ pong_events (now (net w)) (ws conn) pre.
Proof.
  revert w; induction pre as [|i pre IH]; intros w Hq Hfit.
  - exists w. simpl. rewrite !app_nil_r. repeat split; reflexivity.
  - simpl in Hq. apply andb_true_iff in Hq. destruct Hq as [Hi Hq].
    destruct i as [p| |]; simpl in Hi; [| |discriminate].
    + simpl in Hfit. destruct Hfit as [Hopen Hlen].
      pose proof (read_body_data conn p w Hi Hopen
                    (fits_room _ _ (conj Hopen Hlen))) as Hb.
      set (w1 := on_sock (set_broadcastBuffer
                            (enqueue {| source := conn; payload := p |}
                               (broadcastBuffer (sock w)))) w) in *.
      assert (Hfit1 : fits (length (accepted conn pre))
                        (broadcastBuffer (sock w1))).
      { split; simpl; [exact Hopen|]. rewrite length_app; simpl. lia. }
      destruct (IH w1 Hq Hfit1)
        as [w' [Hrun [Hs [Hc [Hcap [Hcl [Hqu [Hn [Hd Ht]]]]]]]]].
      exists w'. split.
      * intros rest. simpl. rewrite <- Hrun.
        now apply run_loop_next.
      * repeat split; try assumption.
        rewrite Hqu; simpl. now rewrite <- app_assoc.
    + pose proof (read_body_pong conn w) as Hb.
      set (w1 := log [EvSetReadDeadline (ws conn)
                        (now (net w) + pongWait)%Z] w) in *.
      destruct (IH w1 Hq Hfit)
        as [w' [Hrun [Hs [Hc [Hcap [Hcl [Hqu [Hn [Hd Ht]]]]]]]]].
      exists w'. split.
      * intros rest. simpl. rewrite <- Hrun.
        now apply run_loop_next.
      * repeat split; try assumption.
        rewrite Ht; simpl. now rewrite <- app_assoc.
Qed.

Lemma readConnectionPump_unfold (conn : Connection)
  (incoming : list Incoming) (w : World) :
  readConnectionPump conn incoming w
  = act_bind (run_loop (read_body conn) incoming
                (log (read_setup (now (net w)) (ws conn)) w))
      (read_pump_after conn).
Proof.
  unfold readConnectionPump, read_setup, ws_SetReadDeadline, modify.
  unfold bind at 1; cbn [act_bind].
  unfold bind at 1; cbn [act_bind].
  rewrite log_log. reflexivity.
Qed.

Lemma emitted_from_trace (w w' : World) (evs : list Event) :
  trace (net w') = trace (net w) ++ evs -> emitted w w' = evs.
Proof.
  intros H. unfold emitted. rewrite H. apply skipn_length_app.
Qed.

Lemma pong_events_shape (t : Z) (h : Handle) (incoming : list Incoming) :
  frames (pong_events t h incoming) = [] /\
  closes (pong_events t h incoming) = [].
Proof.
  induction incoming as [|[p| |] r [IHf IHc]]; simpl; auto.
Qed.

(** The read pump against items that keep it in its loop. *)
Lemma readConnectionPump_quiet
  (conn : Connection) (incoming : list Incoming) (w : World) :
  forallb quiet incoming = true ->
  fits (length (accepted conn incoming)) (broadcastBuffer (sock w)) ->
  exists w',
    readConnectionPump conn incoming w = Ret Running w' /\
    queue (broadcastBuffer (sock w'))
    = queue (broadcastBuffer (sock w)) ++ accepted conn incoming /\
    connections (sock w') = connections (sock w) /\
    controlBuffer (sock w') = controlBuffer (sock w) /\
    emitted w w'
    = read_setup (now (net w)) (ws conn)
      ++ pong_events (now (net w)) (ws conn) incoming /\
    frames (emitted w w') = [] /\
    closes (emitted w w') = [].
Proof.
  intros Hq Hfit.
  rewrite readConnectionPump_unfold.
  destruct (read_loop_quiet conn incoming
              (log (read_setup (now (net w)) (ws conn)) w) Hq Hfit)
    as [w' [Hrun [Hs [Hc [_ [_ [Hqu [_ [_ Ht]]]]]]]]].
  specialize (Hrun []). rewrite app_nil_r in Hrun. rewrite Hrun; simpl.
  exists w'. split; [reflexivity|].
  assert (Hev : emitted w w'
                = read_setup (now (net w)) (ws conn)
                  ++ pong_events (now (net w)) (ws conn) incoming).
  { apply emitted_from_trace. rewrite Ht; simpl. now rewrite <- app_assoc. }
  destruct (pong_events_shape (now (net w)) (ws conn) incoming) as [Hf Hcl].
  repeat split; try assumption.
  - rewrite Hev, frames_app, Hf. reflexivity.
  - rewrite Hev, closes_app, Hcl. reflexivity.
Qed.

(** X6. The read pump relays in order and only reads. Against data frames
    within the read limit and pongs, with room for the frames in the
    broadcast buffer, the pump stays in its loop: the frames are appended to
    the broadcast buffer in their order of arrival with the connection as
    source, each pong refreshes the read deadline, and nothing is written
    to a stream, closed, removed or put on the control buffer. *)
Theorem readConnectionPump_relays_in_order
  (conn : Connection) (incoming : list Incoming) (w : World) :
  forallb quiet incoming = true ->
  fits (length (accepted conn incoming)) (broadcastBuffer (sock w)) ->
  exists w',
    readConnectionPump conn incoming w = Ret Running w' /\
    queue (broadcastBuffer (sock w'))
    = queue (broadcastBuffer (sock w)) ++ accepted conn incoming /\
    connections (sock w') = connections (sock w) /\
    controlBuffer (sock w') = controlBuffer (sock w) /\
    emitted w w'
    = read_setup (now (net w)) (ws conn)
      ++ pong_events (now (net w)) (ws conn) incoming /\
    frames (emitted w w') = [] /\
    closes (emitted w w') = [].
Proof.
  exact (readConnectionPump_quiet conn incoming w).
Qed.

Lemma readConnectionPump_relays_in_order_witness :
  let A := {| ws := 1; isProxy := false |} in
  let w := {| sock := set_connections [A]
                        (fst (NewNamedWebSocket "chat"%string false));
              net := {| now := 0%Z; dead := []; trace := [] |} |} in
  let incoming := [InData "a"%string; InPong; InData "b"%string] in
  exists w',
    readConnectionPump A incoming w = Ret Running w' /\
    queue (broadcastBuffer (sock w'))
    = [{| source := A; payload := "a"%string |};
       {| source := A; payload := "b"%string |}].
Proof.
  intros A w incoming.
  assert (Hq : forallb quiet incoming = true) by reflexivity.
  assert (Hfit : fits (length (accepted A incoming))
                   (broadcastBuffer (sock w)))
    by (split; simpl; [reflexivity|lia]).
  destruct (readConnectionPump_relays_in_order A incoming w Hq Hfit)
    as [w' [Hrun [Hqu _]]].
  exists w'; split; [exact Hrun|exact Hqu].
Defined.

(** The teardown of the read pump, with the trace it leaves. *)
Lemma readConnectionPump_teardown_eq
  (conn : Connection) (pre : list Incoming) (bad : Incoming)
  (rest : list Incoming) (w : World) :
  forallb quiet pre = true ->
  quiet bad = false ->
  fits (length (accepted conn pre)) (broadcastBuffer (sock w)) ->
  can_announce conn w ->
  exists w',
    readConnectionPump conn (pre ++ bad :: rest) w = Ret Exited w' /\
    queue (broadcastBuffer (sock w'))
    = queue (broadcastBuffer (sock w)) ++ accepted conn pre /\
    connections (sock w') = remove_first (ws conn) (connections (sock w)) /\
    queue (controlBuffer (sock w'))
    = queue (controlBuffer (sock w))
      ++ (if isProxy conn then [] else [wsDisconnect conn]) /\
    trace (net w')
    = trace (net w)
      ++ (read_setup (now (net w)) (ws conn)
          ++ pong_events (now (net w)) (ws conn) pre)
      ++ [EvClose (ws conn)] /\
    dead (net w') = ws conn :: dead (net w).
Proof.
  intros Hq Hbad Hfit Hcan.
  rewrite readConnectionPump_unfold.
  destruct (read_loop_quiet conn pre
              (log (read_setup (now (net w)) (ws conn)) w) Hq Hfit)
    as [w1 [Hrun [Hs [Hc [_ [_ [Hqu [_ [Hd Ht]]]]]]]]].
  rewrite (Hrun (bad :: rest)).
  rewrite (run_loop_exit _ bad rest w1 w1 (read_body_stop conn bad w1 Hbad)).
  cbn [act_bind read_pump_after].
  unfold readConnectionPump_deferred, ws_Close, modify.
  unfold bind at 1. unfold bind at 1. cbn [act_bind].
  set (w2 := kill (ws conn) (log [EvClose (ws conn)] w1)).
  assert (Hcan2 : can_announce conn w2).
  { unfold can_announce in *. simpl. rewrite Hc. exact Hcan. }
  destruct (removeConnection_eq conn w2 Hcan2)
    as [w3 [Hrun3 [Hset3 [Hn3 [Hb3 Hc3]]]]].
  rewrite Hrun3; cbn [act_bind]. unfold ret.
  exists w3. split; [reflexivity|].
  split; [rewrite Hb3; exact Hqu|].
  split; [rewrite Hset3; simpl; now rewrite Hs|].
  split.
  { rewrite Hc3. destruct (isProxy conn); simpl; rewrite Hc; simpl.
    - now rewrite app_nil_r.
    - reflexivity. }
  rewrite Hn3; simpl. rewrite Ht, Hd; simpl.
  split; [now rewrite <- !app_assoc|reflexivity].
Qed.

(** X7. A read error or an oversized frame ends the connection. When the
    stream delivers an error, or a data frame longer than the read limit,
    after frames and pongs that were relayed, the pump leaves its loop and
    tears down: the frames before are in the broadcast buffer and the
    offending frame is not, the stream is closed once, the first connection
    on the stream leaves the set, a client gets one disconnect notification
    on the control buffer, and what the stream delivers afterwards is not
    read. *)
Theorem readConnectionPump_teardown
  (conn : Connection) (pre : list Incoming) (bad : Incoming)
  (rest : list Incoming) (w : World) :
  forallb quiet pre = true ->
  quiet bad = false ->
  fits (length (accepted conn pre)) (broadcastBuffer (sock w)) ->
  can_announce conn w ->
  exists w',
    readConnectionPump conn (pre ++ bad :: rest) w = Ret Exited w' /\
    queue (broadcastBuffer (sock w'))
    = queue (broadcastBuffer (sock w)) ++ accepted conn pre /\
    connections (sock w') = remove_first (ws conn) (connections (sock w)) /\
    queue (controlBuffer (sock w'))
    = queue (controlBuffer (sock w))
      ++ (if isProxy conn then [] else [wsDisconnect conn]) /\
    closes (emitted w w') = [ws conn] /\
    frames (emitted w w') = [] /\
    write_fails (net w') (ws conn) = true.
Proof.
  intros Hq Hbad Hfit Hcan.
  destruct (readConnectionPump_teardown_eq conn pre bad rest w
              Hq Hbad Hfit Hcan)
    as [w' [Hrun [Hqu [Hset [Hctl [Ht Hd]]]]]].
  exists w'. split; [exact Hrun|]. split; [exact Hqu|].
  split; [exact Hset|]. split; [exact Hctl|].
  destruct (pong_events_shape (now (net w)) (ws conn) pre) as [Hf Hcl].
  rewrite (emitted_from_trace _ _ _ Ht).
  split; [rewrite !closes_app, Hcl; reflexivity|].
  split; [rewrite !frames_app, Hf; reflexivity|].
  unfold write_fails. rewrite Hd; simpl. now rewrite Nat.eqb_refl.
Qed.

Lemma readConnectionPump_teardown_witness :
  let A := {| ws := 1; isProxy := false |} in
  let B := {| ws := 2; isProxy := false |} in
  let w := {| sock := set_connections [A; B]
                        (fst (NewNamedWebSocket "chat"%string false));
              net := {| now := 0%Z; dead := []; trace := [] |} |} in
  exists w',
    readConnectionPump A ([InData "a"%string] ++ InError :: [InData "b"%string]) w
    = Ret Exited w' /\
    queue (broadcastBuffer (sock w')) = [{| source := A; payload := "a"%string |}] /\
    connections (sock w') = [B] /\
    queue (controlBuffer (sock w')) = [wsDisconnect A].
Proof.
  intros A B w.
  assert (Hq : forallb quiet [InData "a"%string] = true) by reflexivity.
  assert (Hbad : quiet InError = false) by reflexivity.
  assert (Hfit : fits (length (accepted A [InData "a"%string]))
                   (broadcastBuffer (sock w)))
    by (split; simpl; [reflexivity|lia]).
  assert (Hcan : can_announce A w) by (right; split; reflexivity).
  destruct (readConnectionPump_teardown A [InData "a"%string] InError
              [InData "b"%string] w Hq Hbad Hfit Hcan)
    as [w' [Hrun [Hqu [Hset [Hctl _]]]]].
  exists w'; split; [exact Hrun|]. split; [exact Hqu|].
  split; [exact Hset|exact Hctl].
Defined.

(** X8. A full broadcast buffer holds the read pump, it loses nothing. When
    the frames relayed so far fill the broadcast buffer, the next frame
    within the limit parks the pump in its send with that frame pending:
    the buffer holds all the frames before, the set is untouched, and once
    the frame is in the buffer the pump goes on with what the stream
    delivers next. *)
Theorem readConnectionPump_backpressure
  (conn : Connection) (pre : list Incoming) (p : string)
  (rest : list Incoming) (w : World) :
  forallb quiet pre = true ->
  within_limit p = true ->
  closed (broadcastBuffer (sock w)) = false ->
  length (queue (broadcastBuffer (sock w))) + length (accepted conn pre)
  = capacity (broadcastBuffer (sock w)) ->
  exists w1 k,
    readConnectionPump conn (pre ++ InData p :: rest) w
    = Park w1 BroadcastBuf {| source := conn; payload := p |} k /\
    queue (broadcastBuffer (sock w1))
    = queue (broadcastBuffer (sock w)) ++ accepted conn pre /\
    connections (sock w1) = connections (sock w) /\
    controlBuffer (sock w1) = controlBuffer (sock w) /\
    forall w2,
      k w2 = act_bind (run_loop (read_body conn) rest w2)
               (read_pump_after conn).
Proof.
  intros Hq Hl Hopen Hfull.
  assert (Hfit : fits (length (accepted conn pre))
                   (broadcastBuffer
                      (sock (log (read_setup (now (net w)) (ws conn)) w))))
    by (split; simpl; [exact Hopen|lia]).
  rewrite readConnectionPump_unfold.
  destruct (read_loop_quiet conn pre _ Hq Hfit)
    as [w1 [Hrun [Hs [Hc [Hcap [Hcl [Hqu [_ [_ Ht]]]]]]]]].
  rewrite (Hrun (InData p :: rest)).
  assert (Hopen1 : closed (broadcastBuffer (sock w1)) = false)
    by (rewrite Hcl; exact Hopen).
  assert (Hroom1 : has_room (broadcastBuffer (sock w1)) = false).
  { unfold has_room. apply Nat.ltb_ge.
    rewrite Hcap, Hqu, length_app; simpl. lia. }
  simpl. unfold bind at 1.
  rewrite (read_body_full conn p w1 Hl Hopen1 Hroom1); cbn [act_bind].
  eexists; eexists; split; [reflexivity|].
  split; [exact Hqu|]. split; [exact Hs|]. split; [exact Hc|].
  intros w2. reflexivity.
Qed.

Lemma readConnectionPump_backpressure_witness :
  let A := {| ws := 1; isProxy := false |} in
  let s := fst (NewNamedWebSocket "chat"%string false) in
  let w := {| sock := set_broadcastBuffer
                        {| capacity := 1; queue := []; closed := false |}
                        (set_connections [A] s);
              net := {| now := 0%Z; dead := []; trace := [] |} |} in
  exists w1 k,
    readConnectionPump A ([InData "a"%string] ++ InData "b"%string :: []) w
    = Park w1 BroadcastBuf {| source := A; payload := "b"%string |} k /\
    queue (broadcastBuffer (sock w1)) = [{| source := A; payload := "a"%string |}].
Proof.
  intros A s w.
  destruct (readConnectionPump_backpressure A [InData "a"%string] "b"%string
              [] w eq_refl eq_refl eq_refl eq_refl)
    as [w1 [k [Hrun [Hqu _]]]].
  exists w1, k; split; [exact Hrun|exact Hqu].
Defined.

(** ** The dispatcher *)

Lemma buffer_set_same (b : BufferId) (c : Chan) (s : NamedWebSocket) :
  buffer b (set_buffer b c s) = c.
Proof. now destruct b. Qed.

Lemma buffer_set_other (b : BufferId) (c : Chan) (s : NamedWebSocket) :
  buffer (other_buffer b) (set_buffer b c s) = buffer (other_buffer b) s.
Proof. now destruct b. Qed.

Lemma connections_set_buffer (b : BufferId) (c : Chan) (s : NamedWebSocket) :
  connections (set_buffer b c s) = connections s.
Proof. now destruct b. Qed.

Lemma other_buffer_involutive (b : BufferId) :
  other_buffer (other_buffer b) = b.
Proof. now destruct b. Qed.

(** The buffer [b] is the one [select] receives from when the scheduler
    prefers [pref]: it is preferred, or the preferred one is open and
    empty. *)
Lemma select_takes (pref b : BufferId) (m : WSMessage) (q : list WSMessage)
  (s : NamedWebSocket) :
  queue (buffer b s) = m :: q ->
  pref = b \/
  (pref = other_buffer b /\ queue (buffer pref s) = [] /\
   closed (buffer pref s) = false) ->
  select pref s
  = Some (b, Received (Some m) true
               {| capacity := capacity (buffer b s); queue := q;
                  closed := closed (buffer b s) |}).
Proof.
  intros Hq [->|[-> [He Ho]]]; unfold select, chan_recv.
  - now rewrite Hq.
  - rewrite He, Ho, other_buffer_involutive. now rewrite Hq.
Qed.

(** One iteration that receives [m] from [b]. *)
Lemma dispatch_one (pref b : BufferId) (m : WSMessage) (q : list WSMessage)
  (w : World) :
  queue (buffer b (sock w)) = m :: q ->
  pref = b \/
  (pref = other_buffer b /\ queue (buffer pref (sock w)) = [] /\
   closed (buffer pref (sock w)) = false) ->
  messageDispatcher_iter pref w
  = Ret Next
      (log (flat_map (broadcast_events m (now (net w)) (dead (net w)))
              (connections (sock w)))
         (on_sock (set_buffer b
                     {| capacity := capacity (buffer b (sock w)); queue := q;
                        closed := closed (buffer b (sock w)) |}) w)).
Proof.
  intros Hq Hpref. unfold messageDispatcher_iter.
  rewrite (select_takes pref b m q (sock w) Hq Hpref).
  unfold dispatch_case, modify; simpl.
  unfold bind at 1; cbn [act_bind]. unfold deref.
  unfold bind at 1; unfold ret at 1; cbn [act_bind].
  unfold bind at 1. rewrite broadcast_eq; cbn [act_bind]. unfold ret.
  simpl. now rewrite connections_set_buffer.
Qed.

Lemma chan_recv_waits_iff (c : Chan) :
  closed c = false -> (chan_recv c = RecvWaits <-> queue c = []).
Proof.
  intros Hc. unfold chan_recv. destruct (queue c) as [|m q].
  - rewrite Hc. tauto.
  - split; discriminate.
Qed.

(** An iteration stalls exactly on two empty buffers. *)
Lemma dispatcher_iter_stall_iff (pref : BufferId) (w : World) :
  buffers_open w ->
  (messageDispatcher_iter pref w = Ret Stall w <->
   queue (controlBuffer (sock w)) = [] /\
   queue (broadcastBuffer (sock w)) = []) /\
  (messageDispatcher_iter pref w = Ret Stall w \/
   exists w', messageDispatcher_iter pref w = Ret Next w').
Proof.
  intros Hw.
  assert (Hor : messageDispatcher_iter pref w = Ret Stall w \/
                exists w', messageDispatcher_iter pref w = Ret Next w').
  { destruct (messageDispatcher_iter_open pref w Hw) as [Hs|[w' [Hn _]]];
      [now left|right; now exists w']. }
  split; [|exact Hor].
  pose proof (open_buffer pref w Hw) as Hp.
  pose proof (open_buffer (other_buffer pref) w Hw) as Ho.
  assert (Hboth : queue (controlBuffer (sock w)) = [] /\
                  queue (broadcastBuffer (sock w)) = [] <->
                  queue (buffer pref (sock w)) = [] /\
                  queue (buffer (other_buffer pref) (sock w)) = [])
    by (destruct pref; simpl; tauto).
  rewrite Hboth. split.
  - intros Hs.
    destruct (queue (buffer pref (sock w))) as [|m q] eqn:Hq.
    + split; [reflexivity|].
      destruct (queue (buffer (other_buffer pref) (sock w)))
        as [|m q] eqn:Hq2; [reflexivity|].
      rewrite (dispatch_one pref (other_buffer pref) m q w Hq2) in Hs;
        [discriminate|].
      right. rewrite other_buffer_involutive. now repeat split.
    + rewrite (dispatch_one pref pref m q w Hq) in Hs; [discriminate|].
      now left.
  - intros [Hq Hq2]. unfold messageDispatcher_iter, select.
    rewrite (proj2 (chan_recv_waits_iff _ Hp) Hq).
    now rewrite (proj2 (chan_recv_waits_iff _ Ho) Hq2).
Qed.

(** X9. The dispatcher waits only when there is nothing to relay. While
    the buffers are open, an iteration finds nothing to do exactly when
    both buffers are empty, whichever case the scheduler prefers; otherwise
    it relays a message and goes round again. *)
Theorem messageDispatcher_waits_iff_empty (pref : BufferId) (w : World) :
  buffers_open w ->
  (messageDispatcher_iter pref w = Ret Stall w <->
   queue (controlBuffer (sock w)) = [] /\
   queue (broadcastBuffer (sock w)) = []) /\
  (messageDispatcher_iter pref w = Ret Stall w \/
   exists w', messageDispatcher_iter pref w = Ret Next w').
Proof.
  exact (dispatcher_iter_stall_iff pref w).
Qed.

Lemma messageDispatcher_waits_iff_empty_witness :
  let w := {| sock := fst (NewNamedWebSocket "chat"%string false);
              net := {| now := 0%Z; dead := []; trace := [] |} |} in
  buffers_open w /\ messageDispatcher_iter ControlBuf w = Ret Stall w.
Proof.
  intros w.
  assert (Hw : buffers_open w) by (split; reflexivity).
  split; [exact Hw|].
  apply (proj1 (messageDispatcher_waits_iff_empty ControlBuf w Hw)).
  split; reflexivity.
Defined.

(** X10. An iteration relays the oldest message of one buffer. When the
    buffer the dispatcher receives from holds [m] first, the iteration
    takes [m] off that buffer, leaves the rest of it and the other buffer
    as they are, leaves the set as it is, and writes [m]'s payload to the
    recipients of [m] in the set, in the order of the set. *)
Theorem messageDispatcher_relays_oldest
  (pref b : BufferId) (m : WSMessage) (q : list WSMessage) (w : World) :
  queue (buffer b (sock w)) = m :: q ->
  pref = b \/
  (pref = other_buffer b /\ queue (buffer pref (sock w)) = [] /\
   closed (buffer pref (sock w)) = false) ->
  exists w',
    messageDispatcher_iter pref w = Ret Next w' /\
    queue (buffer b (sock w')) = q /\
    buffer (other_buffer b) (sock w') = buffer (other_buffer b) (sock w) /\
    connections (sock w') = connections (sock w) /\
    frames (emitted w w') = recipient_frames m (connections (sock w)).
Proof.
  intros Hq Hpref.
  eexists; split; [apply (dispatch_one pref b m q w Hq Hpref)|].
  simpl. rewrite buffer_set_same, buffer_set_other, connections_set_buffer.
  repeat split; try reflexivity.
  unfold emitted; simpl. rewrite skipn_length_app.
  apply broadcast_frames.
Qed.

Lemma messageDispatcher_relays_oldest_witness :
  let A := {| ws := 1; isProxy := false |} in
  let B := {| ws := 2; isProxy := false |} in
  let s := fst (NewNamedWebSocket "chat"%string false) in
  let hi := {| source := A; payload := "hi"%string |} in
  let w := {| sock := set_broadcastBuffer
                        {| capacity := 512; queue := [hi]; closed := false |}
                        (set_connections [A; B] s);
              net := {| now := 0%Z; dead := []; trace := [] |} |} in
  exists w',
    messageDispatcher_iter ControlBuf w = Ret Next w' /\
    queue (broadcastBuffer (sock w')) = [] /\
    frames (emitted w w') = [(2, TextMessage, "hi"%string)].
Proof.
  intros A B s hi w.
  assert (Hq : queue (buffer BroadcastBuf (sock w)) = hi :: [])
    by reflexivity.
  assert (Hpref : ControlBuf = BroadcastBuf \/
                  (ControlBuf = other_buffer BroadcastBuf /\
                   queue (buffer ControlBuf (sock w)) = [] /\
                   closed (buffer ControlBuf (sock w)) = false))
    by (right; repeat split; reflexivity).
  destruct (messageDispatcher_relays_oldest ControlBuf BroadcastBuf hi [] w
              Hq Hpref) as [w' [Hrun [Hqu [_ [_ Hfr]]]]].
  exists w'; split; [exact Hrun|]. split; [exact Hqu|exact Hfr].
Defined.

Lemma pref_takes (pref b : BufferId) (s : NamedWebSocket) :
  queue (buffer (other_buffer b) s) = [] ->
  closed (buffer (other_buffer b) s) = false ->
  pref = b \/
  (pref = other_buffer b /\ queue (buffer pref s) = [] /\
   closed (buffer pref s) = false).
Proof.
  intros He Ho. destruct pref, b; simpl in *; auto.
Qed.

Lemma dispatcher_drains (b : BufferId) (q : list WSMessage) :
  forall (choices : list BufferId) (w : World),
    queue (buffer b (sock w)) = q ->
    closed (buffer b (sock w)) = false ->
    queue (buffer (other_buffer b) (sock w)) = [] ->
    closed (buffer (other_buffer b) (sock w)) = false ->
    length q <= length choices ->
    exists w',
      messageDispatcher choices w = Ret Running w' /\
      queue (buffer b (sock w')) = [] /\
      buffer (other_buffer b) (sock w') = buffer (other_buffer b) (sock w) /\
      connections (sock w') = connections (sock w) /\
      now (net w') = now (net w) /\
      dead (net w') = dead (net w) /\
      trace (net w')
      = trace (net w)
        ++ flat_map (fun m =>
             flat_map (broadcast_events m (now (net w)) (dead (net w)))
               (connections (sock w))) q.
Proof.
  induction q as [|m q IH]; intros choices w Hq Hc He Ho Hlen.
  - assert (Hw : buffers_open w) by (destruct b; split; assumption).
    exists w. simpl. rewrite app_nil_r. repeat split; auto.
    destruct choices as [|pref cs]; [reflexivity|].
    unfold messageDispatcher; simpl. unfold bind.
    assert (Hs : messageDispatcher_iter pref w = Ret Stall w).
    { apply (proj1 (dispatcher_iter_stall_iff pref w Hw)).
      destruct b; simpl in *; auto. }
    now rewrite Hs.
  - destruct choices as [|pref cs]; [simpl in Hlen; lia|].
    pose proof (dispatch_one pref b m q w Hq (pref_takes pref b _ He Ho))
      as Hone.
    set (w1 := log (flat_map (broadcast_events m (now (net w)) (dead (net w)))
                      (connections (sock w)))
                 (on_sock (set_buffer b
                             {| capacity := capacity (buffer b (sock w));
                                queue := q;
                                closed := closed (buffer b (sock w)) |}) w))
      in *.
    assert (Hq1 : queue (buffer b (sock w1)) = q)
      by (simpl; now rewrite buffer_set_same).
    assert (Hc1 : closed (buffer b (sock w1)) = false)
      by (simpl; now rewrite buffer_set_same).
    assert (Hoth : buffer (other_buffer b) (sock w1)
                   = buffer (other_buffer b) (sock w))
      by (simpl; now rewrite buffer_set_other).
    assert (Hcon : connections (sock w1) = connections (sock w))
      by (simpl; now rewrite connections_set_buffer).
    assert (Hlen1 : length q <= length cs) by (simpl in Hlen; lia).
    destruct (IH cs w1 Hq1 Hc1) as [w' [Hrun [Hq' [Ho' [Hs' [Hn [Hd Ht]]]]]]];
      try assumption; try (rewrite Hoth; assumption).
    exists w'. split.
    { unfold messageDispatcher in *.
      now rewrite (run_loop_next _ pref cs w w1 Hone). }
    split; [exact Hq'|]. split; [now rewrite Ho'|].
    split; [now rewrite Hs'|]. split; [exact Hn|]. split; [exact Hd|].
    rewrite Ht, Hcon. simpl. now rewrite <- app_assoc.
Qed.

Lemma frames_flat_map {X} (f : X -> list Event) (l : list X) :
  frames (flat_map f l) = flat_map (fun x => frames (f x)) l.
Proof.
  induction l as [|x l IH]; simpl; auto.
  now rewrite frames_app, IH.
Qed.

(** X11. A buffer is drained first in, first out. With the other buffer
    empty and neither closed, a dispatcher that runs for at least as many
    iterations as the buffer holds messages relays them all, oldest first,
    each to its recipients in the set, whichever case the scheduler prefers
    at each turn; then the buffer is empty and the dispatcher waits in its
    loop. *)
Theorem messageDispatcher_drains_in_order
  (b : BufferId) (choices : list BufferId) (w : World) :
  closed (buffer b (sock w)) = false ->
  queue (buffer (other_buffer b) (sock w)) = [] ->
  closed (buffer (other_buffer b) (sock w)) = false ->
  length (queue (buffer b (sock w))) <= length choices ->
  exists w',
    messageDispatcher choices w = Ret Running w' /\
    queue (buffer b (sock w')) = [] /\
    queue (buffer (other_buffer b) (sock w')) = [] /\
    connections (sock w') = connections (sock w) /\
    frames (emitted w w')
    = flat_map (fun m => recipient_frames m (connections (sock w)))
        (queue (buffer b (sock w))).
Proof.
  intros Hc He Ho Hlen.
  destruct (dispatcher_drains b _ choices w eq_refl Hc He Ho Hlen)
    as [w' [Hrun [Hq' [Ho' [Hs' [_ [_ Ht]]]]]]].
  exists w'. split; [exact Hrun|]. split; [exact Hq'|].
  split; [now rewrite Ho'|]. split; [exact Hs'|].
  rewrite (emitted_from_trace _ _ _ Ht), frames_flat_map.
  apply flat_map_ext. intros m. apply broadcast_frames.
Qed.

Lemma messageDispatcher_drains_in_order_witness :
  let A := {| ws := 1; isProxy := false |} in
  let B := {| ws := 2; isProxy := false |} in
  let s := fst (NewNamedWebSocket "chat"%string false) in
  let w := {| sock := set_controlBuffer
                        {| capacity := 512;
                           queue := [wsConnect A; wsDisconnect A];
                           closed := false |}
                        (set_connections [B] s);
              net := {| now := 0%Z; dead := []; trace := [] |} |} in
  exists w',
    messageDispatcher [BroadcastBuf; BroadcastBuf; ControlBuf] w
    = Ret Running w' /\
    frames (emitted w w')
    = [(2, TextMessage, connectPayload); (2, TextMessage, disconnectPayload)].
Proof.
  intros A B s w.
  assert (Hlen : length (queue (buffer ControlBuf (sock w)))
                 <= length [BroadcastBuf; BroadcastBuf; ControlBuf])
    by (simpl; lia).
  destruct (messageDispatcher_drains_in_order ControlBuf
              [BroadcastBuf; BroadcastBuf; ControlBuf] w
              eq_refl eq_refl eq_refl Hlen)
    as [w' [Hrun [_ [_ [_ Hfr]]]]].
  exists w'; split; [exact Hrun|exact Hfr].
Defined.

(** X12. A frame goes to the others and not back. With the broadcast
    buffer open, empty and of positive capacity, a frame within the read
    limit that the read pump of [conn] reads and the dispatcher then takes
    from the broadcast buffer is written to every connection of the set
    that is a recipient for source [conn], never to [conn]'s own stream,
    and the broadcast buffer is empty again. *)
Theorem frame_relayed_to_the_others
  (conn : Connection) (p : string) (w : World) :
  within_limit p = true ->
  closed (broadcastBuffer (sock w)) = false ->
  queue (broadcastBuffer (sock w)) = [] ->
  0 < capacity (broadcastBuffer (sock w)) ->
  exists w',
    (_ <- readConnectionPump conn [InData p] ;;
     messageDispatcher [BroadcastBuf]) w = Ret Running w' /\
    frames (emitted w w')
    = recipient_frames {| source := conn; payload := p |}
        (connections (sock w)) /\
    (forall mt x, ~ In (ws conn, mt, x) (frames (emitted w w'))) /\
    queue (broadcastBuffer (sock w')) = [] /\
    connections (sock w') = connections (sock w).
Proof.
  intros Hl Hopen Hempty Hcap.
  set (msg := {| source := conn; payload := p |}).
  set (w0 := log (read_setup (now (net w)) (ws conn)) w).
  assert (Hq : forallb quiet [InData p] = true) by (simpl; now rewrite Hl).
  assert (Hfit : fits (length (accepted conn [InData p]))
                   (broadcastBuffer (sock w0)))
    by (split; [exact Hopen|simpl; rewrite Hempty; simpl; lia]).
  destruct (read_loop_quiet conn [InData p] w0 Hq Hfit)
    as [w1 [Hrun1 [Hs1 [_ [_ [_ [Hq1 [Hn1 [Hd1 Ht1]]]]]]]]].
  specialize (Hrun1 []). simpl in Hq1, Ht1.
  rewrite Hempty in Hq1; simpl in Hq1. rewrite app_nil_r in Ht1.
  pose proof (dispatch_one BroadcastBuf BroadcastBuf msg [] w1 Hq1
                (or_introl eq_refl)) as Hrun2.
  assert (Hpump : readConnectionPump conn [InData p] w = Ret Running w1).
  { rewrite readConnectionPump_unfold. fold w0.
    change [InData p] with ([InData p] ++ []).
    rewrite Hrun1. reflexivity. }
  set (w2 := log (flat_map (broadcast_events msg (now (net w1))
                               (dead (net w1))) (connections (sock w1)))
                (on_sock (set_buffer BroadcastBuf
                            {| capacity := capacity
                                 (buffer BroadcastBuf (sock w1));
                               queue := [];
                               closed := closed
                                 (buffer BroadcastBuf (sock w1)) |}) w1))
    in *.
  exists w2. split.
  { unfold bind at 1. rewrite Hpump; cbn [act_bind].
    unfold messageDispatcher.
    rewrite (run_loop_next _ BroadcastBuf [] w1 w2 Hrun2). reflexivity. }
  assert (Hfr : frames (emitted w w2) = recipient_frames msg (connections (sock w))).
  { erewrite emitted_from_trace.
    2:{ unfold w2; simpl. rewrite Ht1. unfold w0; simpl.
        rewrite <- app_assoc. reflexivity. }
    rewrite frames_app; simpl. rewrite Hs1. apply broadcast_frames. }
  split; [exact Hfr|]. split.
  - intros mt x Hin. rewrite Hfr in Hin. unfold recipient_frames in Hin.
    apply in_map_iff in Hin. destruct Hin as [c [Heq Hc]].
    apply filter_In in Hc. destruct Hc as [_ Hc].
    unfold spec_recipient in Hc. apply andb_true_iff in Hc.
    destruct Hc as [Hne _]. apply negb_true_iff, Nat.eqb_neq in Hne.
    injection Heq as Hws _ _. contradiction.
  - split; [reflexivity|exact Hs1].
Qed.

Lemma frame_relayed_to_the_others_witness :
  let A := {| ws := 1; isProxy := false |} in
  let B := {| ws := 2; isProxy := false |} in
  let P := {| ws := 3; isProxy := true |} in
  let w := {| sock := set_connections [A; B; P]
                        (fst (NewNamedWebSocket "chat"%string true));
              net := {| now := 0%Z; dead := []; trace := [] |} |} in
  exists w',
    (_ <- readConnectionPump P [InData "remote-hi"%string] ;;
     messageDispatcher [BroadcastBuf]) w = Ret Running w' /\
    frames (emitted w w')
    = [(1, TextMessage, "remote-hi"%string);
       (2, TextMessage, "remote-hi"%string)].
Proof.
  intros A B P w.
  assert (Hcap : 0 < capacity (broadcastBuffer (sock w))) by (simpl; lia).
  destruct (frame_relayed_to_the_others P "remote-hi"%string w
              eq_refl eq_refl eq_refl Hcap) as [w' [Hrun [Hfr _]]].
  exists w'; split; [exact Hrun|exact Hfr].
Defined.

(** ** The endpoint, from request to teardown *)

Lemma act_bind_ret_inv {A B} (x : Act A) (f : A -> M B) (b : B) (w' : World) :
  act_bind x f = Ret b w' ->
  exists a w1, x = Ret a w1 /\ f a w1 = Ret b w'.
Proof.
  destruct x as [a w1|e|w1 bf m k]; simpl; intros H; try discriminate.
  now exists a, w1.
Qed.

(** X13. Only an attached connection changes the channel. Whenever [serve]
    returns something else than an attached connection (the method was not
    GET, or the upgrade failed) the channel is as it was, no frame has been
    written and no stream closed. *)
Theorem serve_without_attach_changes_nothing
  (r : Request) (up : Upgrade) (incoming : list Incoming)
  (w w' : World) (res : Served) :
  serve r up incoming w = Ret res w' ->
  (forall conn st, res <> Attached conn st) ->
  sock w' = sock w /\
  frames (emitted w w') = [] /\
  closes (emitted w w') = [] /\
  dead (net w') = dead (net w).
Proof.
  unfold serve. intros Hrun Hres.
  destruct (negb (Method r =? "GET")%string).
  - injection Hrun as _ <-. unfold emitted. rewrite skipn_all. auto.
  - destruct up as [h| |e].
    + exfalso. unfold bind in Hrun.
      apply act_bind_ret_inv in Hrun. destruct Hrun as [u [w1 [_ Hrun]]].
      apply act_bind_ret_inv in Hrun. destruct Hrun as [st [w2 [_ Hrun]]].
      injection Hrun as <- _. eapply Hres. reflexivity.
    + injection Hrun as _ <-. unfold emitted. rewrite skipn_all. auto.
    + injection Hrun as _ <-. rewrite emitted_log. auto.
Qed.

Lemma serve_without_attach_changes_nothing_witness :
  let r := {| Method := "GET"%string; Header := [] |} in
  let w := {| sock := fst (NewNamedWebSocket "chat"%string true);
              net := {| now := 0%Z; dead := []; trace := [] |} |} in
  let w' := log [EvLog "bad handshake"%string] w in
  serve r (OtherError "bad handshake"%string) [InData "hi"%string] w
  = Ret NoStream w' /\
  sock w' = sock w.
Proof.
  intros r w w'.
  assert (Hrun : serve r (OtherError "bad handshake"%string)
                   [InData "hi"%string] w = Ret NoStream w') by reflexivity.
  split; [exact Hrun|].
  refine (proj1 (serve_without_attach_changes_nothing _ _ _ _ _ _ Hrun _)).
  intros conn st; discriminate.
Defined.

(** What [addConnection] leaves behind, with the trace. *)
Lemma addConnection_trace (conn : Connection) (w : World) :
  can_announce conn w ->
  exists w',
    addConnection conn w = Ret tt w' /\
    connections (sock w') = connections (sock w) ++ [conn] /\
    broadcastBuffer (sock w') = broadcastBuffer (sock w) /\
    controlBuffer (sock w')
    = (if isProxy conn then controlBuffer (sock w)
       else enqueue (wsConnect conn) (controlBuffer (sock w))) /\
    now (net w') = now (net w) /\
    dead (net w') = dead (net w) /\
    trace (net w')
    = trace (net w)
      ++ flat_map (visibility_events conn (now (net w)) (dead (net w)))
           (connections (sock w)).
Proof.
  intros Hcan. unfold addConnection.
  unfold bind at 1. rewrite addConnection_notify_eq; cbn [act_bind].
  destruct (isProxy conn) eqn:Hp; simpl.
  - unfold bind, ret, modify; simpl.
    eexists; split; [reflexivity|]. simpl. repeat split; reflexivity.
  - destruct Hcan as [Hc|[Hopen Hroom]]; [congruence|].
    unfold bind, send, modify; simpl. rewrite Hopen, Hroom; simpl.
    eexists; split; [reflexivity|]. simpl. repeat split; reflexivity.
Qed.







(** ** The write pump on any stream *)

(** The write pump after any number of ticks. *)
Lemma writeConnectionPump_eq
  (conn : Connection) (ticks : list Z) (w : World) :
  exists w',
    writeConnectionPump conn ticks w = Ret Running w' /\
    sock w' = sock w /\
    emitted w w'
    = EvNewTicker (ws conn) (54 * Second)%Z
      :: flat_map (fun _ =>
           [EvSetWriteDeadline (ws conn) (now (net w) + 10 * Second)%Z;
            EvWriteMessage (ws conn) PingMessage ""%string
              (negb (write_fails (net w) (ws conn)))]) ticks /\
    length (frames (emitted w w')) = length ticks /\
    closes (emitted w w') = [] /\
    dead (net w') = dead (net w).
Proof.
  unfold writeConnectionPump, modify.
  unfold bind at 1; cbn [act_bind]. unfold bind at 1.
  rewrite ping_loop_eq; cbn [act_bind]. unfold ret. rewrite log_log.
  eexists; split; [reflexivity|]. rewrite emitted_log.
  split; [reflexivity|]. split; [reflexivity|].
  cbn [app frames closes].
  rewrite (proj1 (ping_events_shape _ conn ticks)).
  rewrite (proj1 (proj2 (ping_events_shape _ conn ticks))).
  split; [apply length_map|]. split; reflexivity.
Qed.

(** X16. The write pump only pings. On every stream, dead or alive, and
    for any number of ticks, the pump starts a ticker of period 54 s and
    then writes one empty ping for each tick, with the write deadline 10 s
    ahead; it never leaves its loop, closes nothing, and leaves the channel
    (set and buffers) as it is. A ping succeeds exactly when the stream is
    alive. *)
Theorem writeConnectionPump_only_pings
  (conn : Connection) (ticks : list Z) (w : World) :
  exists w',
    writeConnectionPump conn ticks w = Ret Running w' /\
    sock w' = sock w /\
    emitted w w'
    = EvNewTicker (ws conn) (54 * Second)%Z
      :: flat_map (fun _ =>
           [EvSetWriteDeadline (ws conn) (now (net w) + 10 * Second)%Z;
            EvWriteMessage (ws conn) PingMessage ""%string
              (negb (write_fails (net w) (ws conn)))]) ticks /\
    length (frames (emitted w w')) = length ticks /\
    closes (emitted w w') = [] /\
    dead (net w') = dead (net w).
Proof.
  exact (writeConnectionPump_eq conn ticks w).
Qed.

(** ** Invariants of the system, in general *)

Section HubInvariant.

Variable Inv : World -> Prop.
Variable ok : BufferId -> WSMessage -> Prop.

Hypothesis Inv_open : forall w, Inv w -> buffers_open w.
Hypothesis Inv_net : forall w n, Inv w -> Inv {| sock := sock w; net := n |}.
Hypothesis Inv_connections :
  forall w l, Inv w -> Inv (on_sock (set_connections l) w).
Hypothesis Inv_discovery :
  forall w d, Inv w -> Inv (on_sock (set_discoveryClient d) w).
Hypothesis Inv_enqueue :
  forall w b m,
    Inv w -> ok b m -> has_room (buffer b (sock w)) = true ->
    Inv (on_sock (set_buffer b (enqueue m (buffer b (sock w)))) w).
Hypothesis Inv_dequeue :
  forall w b m q,
    Inv w -> queue (buffer b (sock w)) = m :: q ->
    Inv (on_sock (set_buffer b
                    {| capacity := capacity (buffer b (sock w)); queue := q;
                       closed := closed (buffer b (sock w)) |}) w).
Hypothesis ok_connect :
  forall conn, isProxy conn = false -> ok ControlBuf (wsConnect conn).
Hypothesis ok_disconnect :
  forall conn, isProxy conn = false -> ok ControlBuf (wsDisconnect conn).
Hypothesis ok_frame :
  forall conn p,
    within_limit p = true ->
    ok BroadcastBuf {| source := conn; payload := p |}.

Lemma Inv_log (evs : list Event) (w : World) : Inv w -> Inv (log evs w).
Proof. intros H. unfold log. now apply Inv_net. Qed.

Lemma Inv_kill (h : Handle) (w : World) : Inv w -> Inv (kill h w).
Proof. intros H. unfold kill. now apply Inv_net. Qed.

Lemma through_bind {A B} (x : Act A) (f : A -> M B) :
  holds_through Inv ok x ->
  (forall a, maintains Inv ok (f a)) ->
  holds_through Inv ok (act_bind x f).
Proof.
  intros Hx Hf; induction Hx as [a w Hw|w b m k Hw Hm Hk IH]; simpl.
  - now apply Hf.
  - constructor; auto.
Qed.

Lemma maintains_bind {A B} (c : M A) (f : A -> M B) :
  maintains Inv ok c ->
  (forall a, maintains Inv ok (f a)) ->
  maintains Inv ok (bind c f).
Proof.
  intros Hc Hf w Hw. unfold bind. apply through_bind; auto.
Qed.

Lemma maintains_ret {A} (a : A) : maintains Inv ok (ret a).
Proof. intros w Hw. now constructor. Qed.

Lemma maintains_modify (f : World -> World) :
  (forall w, Inv w -> Inv (f w)) -> maintains Inv ok (modify f).
Proof. intros Hf w Hw. constructor. now apply Hf. Qed.

Lemma maintains_send (b : BufferId) (m : WSMessage) :
  ok b m -> maintains Inv ok (send b m).
Proof.
  intros Hm w Hw. unfold send; simpl.
  rewrite (open_buffer b w (Inv_open w Hw)).
  destruct (has_room (buffer b (sock w))) eqn:Hroom.
  - constructor. now apply Inv_enqueue.
  - constructor; auto. intros w' Hw'. now constructor.
Qed.

Lemma maintains_run_loop {I} (body : I -> M Ctl) (events : list I) :
  (forall i, maintains Inv ok (body i)) ->
  maintains Inv ok (run_loop body events).
Proof.
  intros Hb; induction events as [|e es IH]; simpl.
  - apply maintains_ret.
  - apply maintains_bind; auto.
    intros [| |]; auto using maintains_ret.
Qed.

Lemma maintains_write conn mt p : maintains Inv ok (write conn mt p).
Proof.
  intros w Hw. rewrite write_eq. constructor. now apply Inv_log.
Qed.

Lemma maintains_addConnection conn : maintains Inv ok (addConnection conn).
Proof.
  unfold addConnection. apply maintains_bind.
  - intros w Hw. rewrite addConnection_notify_eq.
    constructor. now apply Inv_log.
  - intros _. apply maintains_bind.
    + destruct (isProxy conn) eqn:Hp; simpl.
      * apply maintains_ret.
      * apply maintains_send. now apply ok_connect.
    + intros _. apply maintains_modify. intros w Hw.
      now apply Inv_connections.
Qed.

Lemma maintains_removeConnection conn :
  maintains Inv ok (removeConnection conn).
Proof.
  unfold removeConnection. apply maintains_bind.
  - apply maintains_modify. intros w Hw.
    destruct (index_ws (ws conn) (connections (sock w))); auto.
  - intros _. destruct (isProxy conn) eqn:Hp; simpl.
    + apply maintains_ret.
    + apply maintains_send. now apply ok_disconnect.
Qed.

Lemma maintains_ws_Close h : maintains Inv ok (ws_Close h).
Proof.
  apply maintains_modify. intros w Hw. now apply Inv_kill, Inv_log.
Qed.

Lemma maintains_ws_SetReadDeadline h :
  maintains Inv ok (ws_SetReadDeadline h).
Proof. intros w Hw. constructor. now apply Inv_log. Qed.

Lemma maintains_read_body conn i : maintains Inv ok (read_body conn i).
Proof.
  intros w Hw. destruct (quiet i) eqn:Hq.
  - destruct i as [p| |]; simpl in Hq; [| |discriminate].
    + destruct (Inv_open w Hw) as [Hb _].
      destruct (has_room (broadcastBuffer (sock w))) eqn:Hroom.
      * rewrite (read_body_data conn p w Hq Hb Hroom). constructor.
        apply (Inv_enqueue w BroadcastBuf); auto.
      * rewrite (read_body_full conn p w Hq Hb Hroom).
        constructor; auto. intros w' Hw'. now constructor.
    + rewrite read_body_pong. constructor. now apply Inv_log.
  - rewrite (read_body_stop conn i w Hq). now constructor.
Qed.

Lemma maintains_readConnectionPump conn incoming :
  maintains Inv ok (readConnectionPump conn incoming).
Proof.
  intros w Hw. rewrite readConnectionPump_unfold.
  apply through_bind.
  - apply maintains_run_loop; [apply maintains_read_body|].
    now apply Inv_log.
  - intros [|]; simpl; [apply maintains_ret|].
    apply maintains_bind; [|intros _; apply maintains_ret].
    unfold readConnectionPump_deferred.
    apply maintains_bind; [apply maintains_ws_Close|].
    intros _. apply maintains_removeConnection.
Qed.

Lemma maintains_writeConnectionPump conn ticks :
  maintains Inv ok (writeConnectionPump conn ticks).
Proof.
  intros w Hw.
  destruct (writeConnectionPump_eq conn ticks w)
    as [w' [Hrun [Hs _]]].
  rewrite Hrun. constructor.
  replace w' with {| sock := sock w; net := net w' |}
    by (rewrite <- Hs; now destruct w').
  now apply Inv_net.
Qed.

Lemma maintains_messageDispatcher_iter pref :
  maintains Inv ok (messageDispatcher_iter pref).
Proof.
  intros w Hw. pose proof (Inv_open w Hw) as Hopen.
  destruct (queue (buffer pref (sock w))) as [|m q] eqn:Hq.
  - destruct (queue (buffer (other_buffer pref) (sock w)))
      as [|m q] eqn:Hq2.
    + assert (Hs : messageDispatcher_iter pref w = Ret Stall w).
      { apply (proj1 (dispatcher_iter_stall_iff pref w Hopen)).
        destruct pref; simpl in *; auto. }
      rewrite Hs. now constructor.
    + rewrite (dispatch_one pref (other_buffer pref) m q w Hq2).
      * constructor. apply Inv_log.
        exact (Inv_dequeue w (other_buffer pref) m q Hw Hq2).
      * right. rewrite other_buffer_involutive.
        split; [reflexivity|]. split; [exact Hq|].
        now apply open_buffer.
  - rewrite (dispatch_one pref pref m q w Hq (or_introl eq_refl)).
    constructor. apply Inv_log. exact (Inv_dequeue w pref m q Hw Hq).
Qed.

Lemma maintains_serve r up incoming :
  maintains Inv ok (serve r up incoming).
Proof.
  unfold serve.
  destruct (negb (Method r =? "GET")%string); [apply maintains_ret|].
  destruct up as [h| |e].
  - apply maintains_bind; [apply maintains_addConnection|].
    intros _. apply maintains_bind; [apply maintains_readConnectionPump|].
    intros st; apply maintains_ret.
  - apply maintains_ret.
  - apply maintains_bind; [|intros _; apply maintains_ret].
    apply maintains_modify. intros w Hw. now apply Inv_log.
Qed.

Lemma maintains_advertise : maintains Inv ok advertise.
Proof.
  apply maintains_modify. intros w Hw.
  destruct (discoveryClient (sock w)); auto.
Qed.

Lemma maintains_run_job (j : Job) : maintains Inv ok (run_job j).
Proof.
  destruct j; simpl.
  - apply maintains_bind; [apply maintains_serve|intros _; apply maintains_ret].
  - apply maintains_addConnection.
  - apply maintains_removeConnection.
  - apply maintains_bind;
      [apply maintains_readConnectionPump|intros _; apply maintains_ret].
  - apply maintains_bind;
      [apply maintains_writeConnectionPump|intros _; apply maintains_ret].
  - apply maintains_bind; [|intros _; apply maintains_ret].
    apply maintains_run_loop. apply maintains_messageDispatcher_iter.
  - apply maintains_advertise.
Qed.

Lemma settle_inv (a : Act unit) (q : list Parked) (s : System) :
  holds_through Inv ok a ->
  Forall (fun p => ok (pbuf p) (pmsg p) /\
                   forall w, Inv w -> holds_through Inv ok (pk p w)) q ->
  settle a q = Some s ->
  system_inv Inv ok s.
Proof.
  intros Ha Hq Hs. destruct Ha as [u w Hw|w b m k Hw Hm Hk]; simpl in Hs;
    injection Hs as <-; split; simpl; auto.
  apply Forall_app; split; auto.
Qed.

Lemma step_inv (s s' : System) (x : Sched) :
  system_inv Inv ok s -> step s x = Some s' -> system_inv Inv ok s'.
Proof.
  intros [Hw Hq] Hstep. destruct x as [j|b|t|h]; simpl in Hstep.
  - apply (settle_inv _ _ _ (maintains_run_job j _ Hw) Hq Hstep).
  - destruct (oldest_parked b (sendq s)) as [[p rest]|] eqn:Ho;
      [|discriminate].
    destruct (oldest_parked_Forall _ _ _ _ _ Hq Ho) as [[Hm Hp] Hrest].
    assert (Hb : pbuf p = b).
    { clear - Ho. revert p rest Ho.
      induction (sendq s) as [|x l IH]; intros p rest Ho; simpl in Ho.
      - discriminate.
      - destruct (BufferId_eqb (pbuf x) b) eqn:He.
        + injection Ho as <- _. now destruct (pbuf x), b.
        + destruct (oldest_parked b l) as [[p' r']|]; [|discriminate].
          injection Ho as <- _. now apply (IH p' r'). }
    rewrite (open_buffer b _ (Inv_open _ Hw)) in Hstep.
    destruct (has_room (buffer b (sock (world s)))) eqn:Hroom;
      [|discriminate].
    rewrite Hb in Hm.
    apply (settle_inv _ _ _
             (Hp _ (Inv_enqueue _ b (pmsg p) Hw Hm Hroom)) Hrest Hstep).
  - injection Hstep as <-. split; simpl; auto.
  - injection Hstep as <-. split; simpl; auto. now apply Inv_kill.
Qed.

Lemma reachable_inv (s0 s : System) :
  system_inv Inv ok s0 -> reachable s0 s -> system_inv Inv ok s.
Proof.
  intros H0 Hr; induction Hr as [|s x s' _ IH Hstep]; auto.
  exact (step_inv _ _ _ IH Hstep).
Qed.

End HubInvariant.

(** ** The invariant of the hub *)

Lemma hub_inv_open (w : World) : hub_inv w -> buffers_open w.
Proof.
  intros H. split.
  - exact (proj1 (H BroadcastBuf)).
  - exact (proj1 (H ControlBuf)).
Qed.

Lemma hub_inv_enqueue (w : World) (b : BufferId) (m : WSMessage) :
  hub_inv w -> hub_message b m ->
  has_room (buffer b (sock w)) = true ->
  hub_inv (on_sock (set_buffer b (enqueue m (buffer b (sock w)))) w).
Proof.
  intros H Hm Hroom b'.
  destruct (H b) as [Hc [Hcap [Hlen Hall]]].
  unfold has_room in Hroom. apply Nat.ltb_lt in Hroom.
  assert (Hnew : hub_buffer b (enqueue m (buffer b (sock w)))).
  { split; [exact Hc|]. split; [exact Hcap|]. simpl. split.
    - rewrite length_app; simpl. lia.
    - apply Forall_app. split; [exact Hall|]. now constructor. }
  destruct b, b'; simpl;
    first [exact Hnew|exact (H ControlBuf)|exact (H BroadcastBuf)].
Qed.

Lemma hub_inv_dequeue (w : World) (b : BufferId) (m : WSMessage)
  (q : list WSMessage) :
  hub_inv w -> queue (buffer b (sock w)) = m :: q ->
  hub_inv (on_sock (set_buffer b
                      {| capacity := capacity (buffer b (sock w)); queue := q;
                         closed := closed (buffer b (sock w)) |}) w).
Proof.
  intros H Hq b'.
  destruct (H b) as [Hc [Hcap [Hlen Hall]]].
  rewrite Hq in Hlen, Hall. simpl in Hlen.
  assert (Hnew : hub_buffer b
                   {| capacity := capacity (buffer b (sock w)); queue := q;
                      closed := closed (buffer b (sock w)) |}).
  { split; [exact Hc|]. split; [exact Hcap|]. simpl. split; [lia|].
    now inversion Hall. }
  destruct b, b'; simpl;
    first [exact Hnew|exact (H ControlBuf)|exact (H BroadcastBuf)].
Qed.

Lemma within_limit_small (conn : Connection) (p : string) :
  within_limit p = true ->
  hub_message BroadcastBuf {| source := conn; payload := p |}.
Proof.
  intros Hl. apply within_limit_true in Hl.
  unfold hub_message, small_frame; simpl. now apply Z.ltb_ge.
Qed.

Lemma boot_hub_inv (name : string) (isBroadcast : bool) (n : Net) :
  system_inv hub_inv hub_message (boot name isBroadcast n).
Proof.
  split; [|constructor].
  intros b; destruct b; simpl; repeat split; auto using Nat.le_0_l.
Qed.

(** In every state reached from a new channel the invariant of the hub
    holds of the buffers, and every parked send carries a message its
    buffer may hold. *)
Lemma reachable_hub_inv
  (name : string) (isBroadcast : bool) (n : Net) (s : System) :
  reachable (boot name isBroadcast n) s ->
  system_inv hub_inv hub_message s.
Proof.
  apply (reachable_inv hub_inv hub_message).
  - exact hub_inv_open.
  - intros w n0 H b. exact (H b).
  - intros w l H b.
    destruct b; [exact (H BroadcastBuf)|exact (H ControlBuf)].
  - intros w d H b.
    destruct b; [exact (H BroadcastBuf)|exact (H ControlBuf)].
  - exact hub_inv_enqueue.
  - exact hub_inv_dequeue.
  - intros conn Hp. split; [exact Hp|now left].
  - intros conn Hp. split; [exact Hp|now right].
  - exact within_limit_small.
  - apply boot_hub_inv.
Qed.

(** X17. The buffers stay within their capacity. In every state the system
    reaches from a new channel each of the two buffers still has capacity
    512 and holds at most 512 messages. *)
Theorem buffers_stay_bounded
  (name : string) (isBroadcast : bool) (n : Net) (s : System) :
  reachable (boot name isBroadcast n) s ->
  forall b,
    capacity (buffer b (sock (world s))) = 512 /\
    length (queue (buffer b (sock (world s)))) <= 512.
Proof.
  intros Hr b.
  destruct (reachable_hub_inv name isBroadcast n s Hr) as [Hw _].
  destruct (Hw b) as [_ [Hcap [Hlen _]]]. now split.
Qed.

(** X18. The control buffer carries only the hub's own notifications. In
    every state the system reaches from a new channel, each message in the
    control buffer, and each message of a send parked on it, is a connect
    or a disconnect notification whose source is not a proxy. *)
Theorem control_buffer_holds_notifications
  (name : string) (isBroadcast : bool) (n : Net) (s : System) :
  reachable (boot name isBroadcast n) s ->
  Forall control_message (queue (controlBuffer (sock (world s)))) /\
  Forall (fun p => pbuf p = ControlBuf -> control_message (pmsg p)) (sendq s).
Proof.
  intros Hr.
  destruct (reachable_hub_inv name isBroadcast n s Hr) as [Hw Hq].
  split.
  - exact (proj2 (proj2 (proj2 (Hw ControlBuf)))).
  - apply (Forall_impl _ (P := fun p =>
             hub_message (pbuf p) (pmsg p) /\
             forall w, hub_inv w -> holds_through hub_inv hub_message (pk p w)));
      [|exact Hq].
    intros p [Hm _] Hb. now rewrite Hb in Hm.
Qed.

(** X19. No oversized frame reaches the broadcast buffer. In every state
    the system reaches from a new channel, each message in the broadcast
    buffer, and each message of a send parked on it, has a payload of at
    most 1024 bytes. *)
Theorem broadcast_buffer_holds_small_frames
  (name : string) (isBroadcast : bool) (n : Net) (s : System) :
  reachable (boot name isBroadcast n) s ->
  Forall small_frame (queue (broadcastBuffer (sock (world s)))) /\
  Forall (fun p => pbuf p = BroadcastBuf -> small_frame (pmsg p)) (sendq s).
Proof.
  intros Hr.
  destruct (reachable_hub_inv name isBroadcast n s Hr) as [Hw Hq].
  split.
  - exact (proj2 (proj2 (proj2 (Hw BroadcastBuf)))).
  - apply (Forall_impl _ (P := fun p =>
             hub_message (pbuf p) (pmsg p) /\
             forall w, hub_inv w -> holds_through hub_inv hub_message (pk p w)));
      [|exact Hq].
    intros p [Hm _] Hb. now rewrite Hb in Hm.
Qed.

Lemma buffers_stay_bounded_witness :
  let n0 := {| now := 0%Z; dead := []; trace := [] |} in
  let get := {| Method := "GET"%string; Header := [] |} in
  let schedule :=
    [Start (JServe get (Upgraded 1) [InData "a"%string; InData "b"%string]);
     Start (JServe get (Upgraded 2) [InError])] in
  exists s,
    run_schedule (boot "chat"%string false n0) schedule = Some s /\
    length (queue (buffer ControlBuf (sock (world s)))) <= 512.
Proof.
  intros n0 get schedule.
  destruct (run_schedule (boot "chat"%string false n0) schedule)
    as [s|] eqn:Hrun; [|vm_compute in Hrun; discriminate].
  exists s. split; [reflexivity|].
  assert (Hr : reachable (boot "chat"%string false n0) s)
    by (apply (run_schedule_reachable _ _ _ schedule (reach_boot _) Hrun)).
  exact (proj2 (buffers_stay_bounded "chat"%string false n0 s Hr ControlBuf)).
Defined.

Lemma control_buffer_holds_notifications_witness :
  let n0 := {| now := 0%Z; dead := []; trace := [] |} in
  let get := {| Method := "GET"%string; Header := [] |} in
  let proxy := {| Method := "GET"%string;
                  Header := [("X-BroadcastWebSocket-Proxy"%string,
                              "true"%string)] |} in
  let schedule :=
    [Start (JServe get (Upgraded 1) [InData "____connect"%string]);
     Start (JServe proxy (Upgraded 2) [InError]);
     Start (JRemoveConnection {| ws := 1; isProxy := false |})] in
  exists s,
    run_schedule (boot "chat"%string true n0) schedule = Some s /\
    Forall control_message (queue (controlBuffer (sock (world s)))).
Proof.
  intros n0 get proxy schedule.
  destruct (run_schedule (boot "chat"%string true n0) schedule)
    as [s|] eqn:Hrun; [|vm_compute in Hrun; discriminate].
  exists s. split; [reflexivity|].
  assert (Hr : reachable (boot "chat"%string true n0) s)
    by (apply (run_schedule_reachable _ _ _ schedule (reach_boot _) Hrun)).
  exact (proj1 (control_buffer_holds_notifications "chat"%string true n0 s Hr)).
Defined.

Lemma broadcast_buffer_holds_small_frames_witness :
  let n0 := {| now := 0%Z; dead := []; trace := [] |} in
  let get := {| Method := "GET"%string; Header := [] |} in
  let schedule :=
    [Start (JServe get (Upgraded 1) [InData "hi"%string; InPong]);
     Start (JReadPump {| ws := 1; isProxy := false |} [InData "ho"%string])] in
  exists s,
    run_schedule (boot "chat"%string true n0) schedule = Some s /\
    Forall small_frame (queue (broadcastBuffer (sock (world s)))).
Proof.
  intros n0 get schedule.
  destruct (run_schedule (boot "chat"%string true n0) schedule)
    as [s|] eqn:Hrun; [|vm_compute in Hrun; discriminate].
  exists s. split; [reflexivity|].
  assert (Hr : reachable (boot "chat"%string true n0) s)
    by (apply (run_schedule_reachable _ _ _ schedule (reach_boot _) Hrun)).
  exact (proj1 (broadcast_buffer_holds_small_frames "chat"%string true n0 s Hr)).
Defined.

(** ** Notifications, from the set to the streams *)

Lemma recipients_all (m : WSMessage) (l : list Connection) :
  isProxy (source m) = false ->
  ~ In (ws (source m)) (handles l) ->
  filter (spec_recipient m) l = l.
Proof.
  intros Hp. unfold handles. induction l as [|c l IH]; simpl; intros Hnot.
  - reflexivity.
  - unfold spec_recipient at 1. rewrite Hp; simpl.
    destruct (ws c =? ws (source m)) eqn:Hc.
    + apply Nat.eqb_eq in Hc. exfalso. apply Hnot. now left.
    + simpl. rewrite IH; [reflexivity|]. intros Hin. apply Hnot. now right.
Qed.

Lemma control_ready (w : World) :
  closed (controlBuffer (sock w)) = false ->
  queue (controlBuffer (sock w)) = [] ->
  0 < capacity (controlBuffer (sock w)) ->
  has_room (controlBuffer (sock w)) = true.
Proof.
  intros _ Hq Hcap. unfold has_room. rewrite Hq. now apply Nat.ltb_lt.
Qed.

(** X20. A new client is introduced both ways. When a client on a stream
    that is not in the set is admitted, with the control buffer open and
    empty, and the dispatcher then takes its notification, the new
    connection has been written one connect notification for each
    connection already there, each of those has been written one connect
    notification, the new connection none about itself, and the control
    buffer is empty again. *)
Theorem client_admission_announced (conn : Connection) (w : World) :
  isProxy conn = false ->
  ~ In (ws conn) (handles (connections (sock w))) ->
  closed (controlBuffer (sock w)) = false ->
  queue (controlBuffer (sock w)) = [] ->
  0 < capacity (controlBuffer (sock w)) ->
  exists w',
    (addConnection conn ;; messageDispatcher [ControlBuf]) w
    = Ret Running w' /\
    frames (emitted w w')
    = map (fun _ => (ws conn, TextMessage, connectPayload))
        (connections (sock w))
      ++ map (fun c => (ws c, TextMessage, connectPayload))
           (connections (sock w)) /\
    connections (sock w') = connections (sock w) ++ [conn] /\
    queue (controlBuffer (sock w')) = [].
Proof.
  intros Hp Hfresh Hopen Hempty Hcap.
  assert (Hcan : can_announce conn w).
  { right. split; [exact Hopen|now apply control_ready]. }
  destruct (addConnection_trace conn w Hcan)
    as [w1 [Hrun1 [Hset1 [_ [Hc1 [Hn1 [Hd1 Ht1]]]]]]].
  rewrite Hp in Hc1.
  assert (Hq1 : queue (buffer ControlBuf (sock w1)) = wsConnect conn :: []).
  { simpl. rewrite Hc1; simpl. now rewrite Hempty. }
  pose proof (dispatch_one ControlBuf ControlBuf (wsConnect conn) [] w1 Hq1
                (or_introl eq_refl)) as Hrun2.
  set (w2 := log (flat_map (broadcast_events (wsConnect conn) (now (net w1))
                               (dead (net w1))) (connections (sock w1)))
                (on_sock (set_buffer ControlBuf
                            {| capacity := capacity
                                 (buffer ControlBuf (sock w1));
                               queue := [];
                               closed := closed
                                 (buffer ControlBuf (sock w1)) |}) w1))
    in *.
  exists w2. split.
  { unfold bind at 1. rewrite Hrun1; cbn [act_bind].
    unfold messageDispatcher.
    rewrite (run_loop_next _ ControlBuf [] w1 w2 Hrun2). reflexivity. }
  split.
  { erewrite emitted_from_trace.
    2:{ unfold w2; simpl. rewrite Ht1, <- app_assoc. reflexivity. }
    rewrite frames_app, visibility_frames, broadcast_frames.
    f_equal.
    - unfold spec_visible. rewrite Hp. now rewrite filter_all.
    - rewrite Hset1, filter_app; simpl.
      unfold spec_recipient at 2; simpl. rewrite Nat.eqb_refl; simpl.
      rewrite app_nil_r. f_equal.
      now apply recipients_all. }
  split; [exact Hset1|reflexivity].
Qed.

Lemma client_admission_announced_witness :
  let A := {| ws := 1; isProxy := false |} in
  let P := {| ws := 2; isProxy := true |} in
  let C := {| ws := 3; isProxy := false |} in
  let w := {| sock := set_connections [A; P]
                        (fst (NewNamedWebSocket "chat"%string true));
              net := {| now := 0%Z; dead := []; trace := [] |} |} in
  exists w',
    (addConnection C ;; messageDispatcher [ControlBuf]) w = Ret Running w' /\
    frames (emitted w w')
    = [(3, TextMessage, connectPayload); (3, TextMessage, connectPayload);
       (1, TextMessage, connectPayload); (2, TextMessage, connectPayload)].
Proof.
  intros A P C w.
  assert (Hfresh : ~ In (ws C) (handles (connections (sock w))))
    by (simpl; intros [H|[H|[]]]; discriminate).
  assert (Hcap : 0 < capacity (controlBuffer (sock w))) by (simpl; lia).
  destruct (client_admission_announced C w eq_refl Hfresh eq_refl eq_refl Hcap)
    as [w' [Hrun [Hfr _]]].
  exists w'; split; [exact Hrun|exact Hfr].
Defined.

(** X21. A departing client is announced to those who stay. In a set that
    holds no stream twice, when a client is removed, with the control
    buffer open and empty, and the dispatcher then takes its notification,
    each connection left in the set has been written one disconnect
    notification, in the order of the set, nothing has been written to the
    removed stream, and the control buffer is empty again. *)
Theorem client_removal_announced (conn : Connection) (w : World) :
  isProxy conn = false ->
  NoDup (handles (connections (sock w))) ->
  closed (controlBuffer (sock w)) = false ->
  queue (controlBuffer (sock w)) = [] ->
  0 < capacity (controlBuffer (sock w)) ->
  exists w',
    (removeConnection conn ;; messageDispatcher [ControlBuf]) w
    = Ret Running w' /\
    connections (sock w') = remove_first (ws conn) (connections (sock w)) /\
    frames (emitted w w')
    = map (fun c => (ws c, TextMessage, disconnectPayload))
        (connections (sock w')) /\
    (forall mt p, ~ In (ws conn, mt, p) (frames (emitted w w'))) /\
    queue (controlBuffer (sock w')) = [].
Proof.
  intros Hp Hnd Hopen Hempty Hcap.
  assert (Hcan : can_announce conn w).
  { right. split; [exact Hopen|now apply control_ready]. }
  destruct (removeConnection_eq conn w Hcan)
    as [w1 [Hrun1 [Hset1 [Hn1 [_ Hc1]]]]].
  rewrite Hp in Hc1.
  assert (Hq1 : queue (buffer ControlBuf (sock w1)) = wsDisconnect conn :: []).
  { simpl. rewrite Hc1; simpl. now rewrite Hempty. }
  pose proof (dispatch_one ControlBuf ControlBuf (wsDisconnect conn) [] w1 Hq1
                (or_introl eq_refl)) as Hrun2.
  set (w2 := log (flat_map (broadcast_events (wsDisconnect conn)
                               (now (net w1)) (dead (net w1)))
                    (connections (sock w1)))
                (on_sock (set_buffer ControlBuf
                            {| capacity := capacity
                                 (buffer ControlBuf (sock w1));
                               queue := [];
                               closed := closed
                                 (buffer ControlBuf (sock w1)) |}) w1))
    in *.
  destruct (remove_first_NoDup (ws conn) _ Hnd) as [_ Hgone].
  assert (Hfr : frames (emitted w w2)
                = map (fun c => (ws c, TextMessage, disconnectPayload))
                    (remove_first (ws conn) (connections (sock w)))).
  { erewrite emitted_from_trace.
    2:{ unfold w2; simpl. rewrite Hn1. reflexivity. }
    rewrite broadcast_frames, Hset1.
    now rewrite (recipients_all (wsDisconnect conn) _ Hp Hgone). }
  exists w2. split.
  { unfold bind at 1. rewrite Hrun1; cbn [act_bind].
    unfold messageDispatcher.
    rewrite (run_loop_next _ ControlBuf [] w1 w2 Hrun2). reflexivity. }
  split; [exact Hset1|]. split.
  { rewrite Hfr. f_equal. symmetry. exact Hset1. }
  split; [|reflexivity].
  intros mt p Hin. rewrite Hfr in Hin. apply Hgone.
  apply in_map_iff in Hin. destruct Hin as [c [Heq Hc]].
  apply in_map_iff. exists c. split; [congruence|exact Hc].
Qed.

Lemma client_removal_announced_witness :
  let A := {| ws := 1; isProxy := false |} in
  let B := {| ws := 2; isProxy := false |} in
  let w := {| sock := set_connections [A; B]
                        (fst (NewNamedWebSocket "chat"%string false));
              net := {| now := 0%Z; dead := []; trace := [] |} |} in
  exists w',
    (removeConnection A ;; messageDispatcher [ControlBuf]) w = Ret Running w' /\
    connections (sock w') = [B] /\
    frames (emitted w w') = [(2, TextMessage, disconnectPayload)].
Proof.
  intros A B w.
  assert (Hnd : NoDup (handles (connections (sock w)))).
  { simpl. constructor; [simpl; intros [H|[]]; discriminate|].
    constructor; [simpl; tauto|constructor]. }
  assert (Hcap : 0 < capacity (controlBuffer (sock w))) by (simpl; lia).
  destruct (client_removal_announced A w eq_refl Hnd eq_refl eq_refl Hcap)
    as [w' [Hrun [Hset [Hfr _]]]].
  exists w'; split; [exact Hrun|]. split; [exact Hset|].
  rewrite Hfr, Hset. reflexivity.
Defined.
